(** * diroom: the image ring cache, the annotation pipeline and the
      streaming transcription engine, embedded from the Go sources.

    - [dic/cmd/main.go]: [discard], [imageRing.next], [ringCache.next],
      [ringCache.set], [ImageRequest.Run], [enqueueImageRequest],
      [handleSSearch];
    - [sgtr/google] (speech streaming): [mapDuration], [mapSpeechResults],
      [mapStreamSpeechResult], [computeTimeshiftOffset], [stream.sessLoop],
      [stream.txRecognitionResults], [trSess.sendAudio], [trSess.listenTr]. *)

From Stdlib Require Import ZArith Lia Bool List.
From stdpp Require Import gmap strings list sorting.

Local Open Scope Z_scope.

(** ** Outcomes of a Go call

    A call either returns, or panics (run-time error: the process dies, no
    [recover] exists anywhere in the sources), or is still inside a loop when
    the fuel given to the model is used up. *)

Inductive outcome (A : Type) : Type :=
| Ret (a : A)
| Panic (msg : string)
| Spin.

Arguments Ret {A} a.
Arguments Panic {A} msg.
Arguments Spin {A}.

#[global] Instance outcome_ret : MRet outcome := @Ret.

#[global] Instance outcome_bind : MBind outcome := λ A B k m,
  match m with
  | Ret a => k a
  | Panic msg => Panic msg
  | Spin => Spin
  end.

(** Go's [a % b] on [int]: truncated remainder, panics when [b = 0]. *)
Definition go_rem (a b : Z) : outcome Z :=
  if b =? 0 then Panic "integer divide by zero" else Ret (Z.rem a b).

(** Go's [l[i]]: panics outside [0 <= i < len(l)]. *)
Definition index_slice {A} (l : list A) (i : Z) : outcome A :=
  match (if 0 <=? i then l !! Z.to_nat i else None) with
  | Some x => Ret x
  | None => Panic "index out of range"
  end.

(** Go's [len(l)] as an [int]. *)
Definition len {A} (l : list A) : Z := Z.of_nat (length l).

(** Go's [strings.Contains(s, substr)]. *)
Fixpoint Contains (s substr : string) : bool :=
  String.prefix substr s ||
  match s with
  | EmptyString => false
  | String _ s' => Contains s' substr
  end.

(** ** The image ring cache ([dic/cmd/main.go]) *)

(** [google.ISR]; the [Image] metadata pointer is never read by the ring and
    is left out. *)
Record ISR : Type := mkISR {
  Link : string;
  Mime : string;
  Snippet : string;
  Title : string;
  DisplayLink : string
}.

Record touchedImage : Type := mkTouched {
  image : ISR;
  checked : bool;
  valid : bool
}.

Record imageRing : Type := mkRing {
  all : list touchedImage;
  index : Z
}.

(** What [fastClient.Head] hands back when it does not fail:
    [resp.StatusCode] and [resp.Header.Get("content-type")] (the empty
    string when the header is absent). *)
Record Response : Type := mkResponse {
  StatusCode : Z;
  ContentType : string
}.

(** [discard], after the HEAD request: [None] is a failed request. *)
Definition discardResp (r : option Response) : bool :=
  match r with
  | None => true
  | Some resp =>
      if 400 <=? StatusCode resp then true
      else negb (Contains (ContentType resp) "image")
  end.

Section RingCache.

(** The network seen through [fastClient.Head]. *)
Variable Head : string → option Response.

Definition discard (link : string) : bool := discardResp (Head link).

(** Body of the scan loop up to the validity test (lines 105-108). The
    second component records the links that were HEAD-probed, oldest
    first. *)
Definition touch (ti : touchedImage) (probes : list string)
  : touchedImage * list string :=
  if negb (checked ti)
  then (mkTouched (image ti) (checked ti) (negb (discard (Link (image ti)))),
        probes ++ [Link (image ti)])
  else (ti, probes).

(** The [for] loop of [imageRing.next]; one unit of fuel per evaluation
    of the loop condition. Returns the position found, if any. *)
Fixpoint scan (fuel : nat) (l : list touchedImage) (i : Z)
    (probes : list string)
  : outcome (option Z * list touchedImage * list string) :=
  match fuel with
  | O => Spin
  | S fuel' =>
      if i <? len l then
        ti ← index_slice l i;
        let '(ti', probes') := touch ti probes in
        let l' := <[Z.to_nat i := ti']> l in
        if valid ti' then Ret (Some i, l', probes')
        else
          i' ← go_rem (i + 1) (len l - 1);
          scan fuel' l' i' probes'
      else Ret (None, l, probes)
  end.

(** [imageRing.next]: [None] is the [nil] result. *)
Definition imageRing_next (fuel : nat) (ir : imageRing)
    (probes : list string)
  : outcome (option ISR * imageRing * list string) :=
  if len (all ir) =? 0 then Ret (None, ir, probes)
  else
    '(found, l', probes') ← scan fuel (all ir) (index ir) probes;
    match found with
    | None => Ret (None, mkRing l' (index ir), probes')
    | Some idx =>
        ti ← index_slice l' idx;
        idx' ← go_rem (idx + 1) (len l' - 1);
        Ret (Some (image ti), mkRing l' idx', probes')
    end.

(** [ringCache.next]; the mutex makes the call atomic. [None] is the
    [(nil, false)] miss, [Some im] the [(im, true)] hit. *)
Definition ringCache_next (fuel : nat) (k : string)
    (m : gmap string imageRing) (probes : list string)
  : outcome (option ISR * gmap string imageRing * list string) :=
  match m !! k with
  | None => Ret (None, m, probes)
  | Some ring =>
      '(im, ring', probes') ← imageRing_next fuel ring probes;
      match im with
      | None => Ret (None, delete k m, probes')
      | Some i => Ret (Some i, <[k := ring']> m, probes')
      end
  end.

(** [ringCache.set]. *)
Definition ringCache_set (k : string) (results : list ISR)
    (m : gmap string imageRing) : gmap string imageRing :=
  <[k := mkRing (map (λ v, mkTouched v false false) results) 0]> m.

End RingCache.

(** Concrete rings used below. *)
Definition isr (link : string) : ISR := mkISR link "" "" "" "".

Definition allLive : string → option Response :=
  λ _, Some (mkResponse 200 "image/jpeg").

Definition allDead : string → option Response :=
  λ _, Some (mkResponse 404 "text/html").


(** ** The annotation pipeline ([dic/cmd/main.go]) *)

(** The errors an [ImageRequest] can carry in [r.err]. *)
Inductive lookupError : Type :=
| ErrColumn (col n : Z)          (* "tried to access column %d out of %d" *)
| ErrSearch (msg : string)       (* the error returned by SearchImages *)
| ErrNoResults                   (* "no results" *)
| ErrCacheInconsistency.         (* "cache inconsistency" *)

(** [ImageRequest]. [pos] is not a field of the Go struct: it names the
    pointer [*ImageRequest] by the position of its row in the input. The
    fields [gsc], [opts], [cache] and [done] are the plumbing threaded
    explicitly below. *)
Record ImageRequest : Type := mkRequest {
  pos : nat;
  c : Z;
  rec : list string;
  err : option lookupError
}.

Definition set_err (e : lookupError) (r : ImageRequest) : ImageRequest :=
  mkRequest (pos r) (c r) (rec r) (Some e).

Definition append_rec (s : string) (r : ImageRequest) : ImageRequest :=
  mkRequest (pos r) (c r) (rec r ++ [s]) (err r).

(** The result pair of [SC.SearchImages]. *)
Inductive searched : Type :=
| Items (items : list ISR)
| SearchFailed (msg : string).

(** State of [enqueueImageRequest]: the requests whose [rec] went through
    [w.Write] and [w.Flush], in that order; the errors given to [errorf];
    the error sent on [errc], after which the function has returned. *)
Record writer : Type := mkWriter {
  written : list ImageRequest;
  logged : list lookupError;
  critical : option string
}.

Section Pipeline.

Variable Head : string → option Response.
(** [gsc.SearchImages(ctx, k, opts...)] as seen by the pipeline. *)
Variable SearchImages : string → searched.
(** [w.Write(rec)] on stdout, given what was written before: [Some e] is a
    failed write. *)
Variable Write : list ImageRequest → list string → option string.

(** [ImageRequest.Run], threading the shared cache and the probe log. The
    deferred [r.done <- true] is the completion of the call. *)
Definition Run (fuel : nat) (r : ImageRequest) (m : gmap string imageRing)
    (probes : list string)
  : outcome (ImageRequest * gmap string imageRing * list string) :=
  if len (rec r) <=? c r then
    Ret (set_err (ErrColumn (c r) (len (rec r))) r, m, probes)
  else
    k ← index_slice (rec r) (c r);
    '(im, m1, p1) ← ringCache_next Head fuel k m probes;
    match im with
    | Some i => Ret (append_rec (Link i) r, m1, p1)
    | None =>
        match SearchImages k with
        | SearchFailed e => Ret (set_err (ErrSearch e) r, m1, p1)
        | Items items =>
            if len items =? 0 then
              Ret (append_rec "" (set_err ErrNoResults r), m1, p1)
            else
              '(im2, m3, p3) ←
                ringCache_next Head fuel k (ringCache_set k items m1) p1;
              match im2 with
              | None =>
                  Ret (append_rec "" (set_err ErrCacheInconsistency r),
                       m3, p3)
              | Some i => Ret (append_rec (Link i) r, m3, p3)
              end
        end
    end.

(** One turn of the [for recw := range rx] loop of [enqueueImageRequest],
    from the return of [recw.Wait()] on. *)
Definition consume (w : writer) (recw : ImageRequest) : writer :=
  match err recw with
  | Some e => mkWriter (written w) (logged w ++ [e]) (critical w)
  | None =>
      match Write (written w) (rec recw) with
      | Some e => mkWriter (written w) (logged w) (Some e)
      | None => mkWriter (written w ++ [recw]) (logged w) (critical w)
      end
  end.

(** [enqueueImageRequest] over the requests that come out of [rx], each
    taken in the state it has when its [Wait] returns. *)
Fixpoint enqueueImageRequest (rx : list ImageRequest) (w : writer)
  : writer :=
  match rx with
  | [] => w
  | recw :: rx' =>
      let w' := consume w recw in
      match critical w' with
      | Some _ => w'
      | None => enqueueImageRequest rx' w'
      end
  end.

(** *** The tasks of [handleSSearch] as a transition system

    The dispatcher reads rows, sends each request on [tx] and then spawns
    its worker; workers finish in any order, each on whatever state the
    shared cache is in by then; the consumer takes requests from [tx] one
    at a time and waits for each. [tx] is unbuffered in the source
    ([txcap = 0]); the model leaves the capacity open. *)
Variable txcap : nat.
Variable col : Z.

Record pipeline : Type := mkPipeline {
  input : list (list string);       (* rows [csvr.Read] has yet to return *)
  nread : nat;                      (* rows read so far *)
  heap : gmap nat ImageRequest;     (* the requests, by pointer *)
  tx : list nat;                    (* requests sent on [tx], not received *)
  spawning : option nat;            (* sent on [tx], worker not yet started *)
  running : gset nat;               (* workers inside [Run] *)
  finished : gset nat;              (* workers at [r.done <- true] *)
  cur : option nat;                 (* the request the consumer waits on *)
  sink : writer
}.

Definition maxcc : nat := 10.

Inductive step : pipeline → pipeline → Prop :=
(* lines 271-288: read a row, build the request, [tx <- rw] *)
| step_send row rest n h q run fin cu w :
    (length q < txcap)%nat ∨ (q = [] ∧ cu = None ∧ critical w = None) →
    step (mkPipeline (row :: rest) n h q None run fin cu w)
         (mkPipeline rest (S n) (<[n := mkRequest n col row None]> h)
            (q ++ [n]) (Some n) run fin cu w)
(* lines 289-297: [sem <- struct{}{}], [go func(rw) ...] *)
| step_spawn inp n h q p run fin cu w :
    (size run + size fin < maxcc)%nat →
    step (mkPipeline inp n h q (Some p) run fin cu w)
         (mkPipeline inp n h q None ({[p]} ∪ run) fin cu w)
(* [rw.Run(_ctx)] up to its deferred send on [r.done] *)
| step_finish inp n h q sp p r r' fuel m probes m' probes' run fin cu w :
    p ∈ run →
    h !! p = Some r →
    Run fuel r m probes = Ret (r', m', probes') →
    step (mkPipeline inp n h q sp run fin cu w)
         (mkPipeline inp n (<[p := r']> h) q sp (run ∖ {[p]})
            ({[p]} ∪ fin) cu w)
(* line 221: the consumer receives from [rx] *)
| step_recv inp n h p q sp run fin w :
    critical w = None →
    step (mkPipeline inp n h (p :: q) sp run fin None w)
         (mkPipeline inp n h q sp run fin (Some p) w)
(* lines 222-233: [recw.Wait()] returns, the record is logged or written *)
| step_wait inp n h q sp p r run fin w :
    p ∈ fin →
    h !! p = Some r →
    step (mkPipeline inp n h q sp run fin (Some p) w)
         (mkPipeline inp n h q sp run (fin ∖ {[p]}) None (consume w r)).

Definition start (rows : list (list string)) : pipeline :=
  mkPipeline rows 0 ∅ [] None ∅ ∅ None (mkWriter [] [] None).

End Pipeline.

(** ** Streaming transcription ([sgtr/google]) *)

(** [int64] arithmetic wraps. *)
Definition MaxInt64 : Z := 2 ^ 63 - 1.

Definition wrap64 (z : Z) : Z := (z + 2 ^ 63) mod 2 ^ 64 - 2 ^ 63.

(** *** [float64] values

    A finite [float64] is [mant * 2^expo]. Only division and the conversion
    from [int] are used by the sources, on values far from the exponent
    limits, so rounding is to 53 significant bits, ties to even, with an
    unbounded exponent. *)
Record float64 : Type := mkFloat { mant : Z; expo : Z }.

(** Nearest integer to [n / d] for [d > 0], ties to even. *)
Definition rne (n d : Z) : Z :=
  let q := n / d in
  let r := n mod d in
  if 2 * r <? d then q
  else if d <? 2 * r then q + 1
  else if Z.even q then q else q + 1.

(** The rational [n / d], [d > 0], rounded to a [float64]. *)
Definition round_b64 (n d : Z) : float64 :=
  if n =? 0 then mkFloat 0 0
  else
    let a := Z.abs n in
    let L := Z.log2 a - Z.log2 d in
    let above := if 0 <=? L then d * 2 ^ L <=? a else d <=? a * 2 ^ (- L) in
    let e := (if above then L else L - 1) - 52 in
    let m := if 0 <=? e then rne a (d * 2 ^ e) else rne (a * 2 ^ (- e)) d in
    mkFloat (Z.sgn n * m) e.

(** [float64(z)] for an [int]. *)
Definition float_of_int (z : Z) : float64 := round_b64 z 1.

(** [a / b] for [b] not zero. *)
Definition fdiv (a b : float64) : float64 :=
  let n := Z.sgn (mant b) * mant a in
  let d := Z.abs (mant b) in
  if expo b <=? expo a then round_b64 (n * 2 ^ (expo a - expo b)) d
  else round_b64 n (d * 2 ^ (expo b - expo a)).

Definition is_zero (a : float64) : bool := mant a =? 0.

(** What [fmt.Sprintf("%fs", x)] prints: a sign and a decimal with six
    digits after the point, held as the number of millionths; the value of
    [x] is rounded to it, ties to even. *)
Record decimal6 : Type := mkDecimal6 { negative : bool; millionths : Z }.

Definition Sprintf_f (x : float64) : decimal6 :=
  let a := Z.abs (mant x) in
  mkDecimal6 (mant x <? 0)
    (if 0 <=? expo x then a * 2 ^ expo x * 10 ^ 6
     else rne (a * 10 ^ 6) (2 ^ (- expo x))).

(** [time.ParseDuration] on such a string: the integer part [v] and the
    fraction [f] are read apart and scaled by the unit (seconds);
    [None] is the overflow error. *)
Definition ParseDuration (s : decimal6) : option Z :=
  let v := millionths s / 10 ^ 6 in
  let f := millionths s mod 10 ^ 6 in
  if MaxInt64 / 10 ^ 9 <? v then None
  else
    let d := v * 10 ^ 9 + f * 1000 in
    if MaxInt64 <? d then None
    else Some (if negative s then - d else d).

Definition inSampleRate : Z := 16000.
Definition inBitDepth : Z := 16.
Definition inBitrate : Z := inSampleRate * inBitDepth * 1.

(** [computeTimeshiftOffset], in nanoseconds ([time.Duration]). *)
Definition computeTimeshiftOffset (bytesSent : Z) : Z :=
  let byteRate := fdiv (float_of_int inBitrate) (float_of_int 8) in
  if is_zero byteRate then 0
  else
    let secs := fdiv (float_of_int bytesSent) byteRate in
    if is_zero secs then 0
    else
      match ParseDuration (Sprintf_f secs) with
      | None => 0
      | Some d => d
      end.

(** *** Messages of the speech API ([speechpb]) and transcript records
    ([sgenc]); every pointer field is taken to be populated. *)
Module speechpb.
Record Duration : Type := mkDuration { Seconds : Z; Nanos : Z }.

Record WordInfo : Type := mkWordInfo {
  StartTime : Duration;
  EndTime : Duration;
  Word : string
}.

Record SpeechRecognitionAlternative : Type := mkAlternative {
  Transcript : string;
  Confidence : float64;
  Words : list WordInfo
}.

Record StreamingRecognitionResult : Type := mkResult {
  Alternatives : list SpeechRecognitionAlternative;
  IsFinal : bool
}.

Record StreamingRecognizeResponse : Type := mkResponse {
  Error : option string;
  Results : list StreamingRecognitionResult
}.
End speechpb.

Module sgenc.
Record TrRec : Type := mkTrRec {
  Start : Z;
  End_ : Z;
  TextRaw : string
}.

Record StrTrRec : Type := mkStrTrRec {
  base : TrRec;
  IsFinal : bool;
  Confidence : float64
}.
End sgenc.

Definition mapDuration (d : speechpb.Duration) : Z :=
  wrap64 (speechpb.Seconds d * 1000 * 1000 * 1000 + speechpb.Nanos d).

(** [mapSpeechResults], the mapper of the batch path. *)
Definition mapSpeechResults (alts : list speechpb.SpeechRecognitionAlternative)
  : list sgenc.TrRec :=
  match alts with
  | [] => []
  | alt :: _ =>
      concat (map (λ v,
        if String.eqb (speechpb.Word v) "" then []
        else [sgenc.mkTrRec (mapDuration (speechpb.StartTime v))
                (mapDuration (speechpb.EndTime v)) (speechpb.Word v)])
        (speechpb.Words alt))
  end.

(** [mapStreamSpeechResult]: [r.Alternatives[0]] is not guarded. *)
Definition mapStreamSpeechResult (r : speechpb.StreamingRecognitionResult)
  : outcome (list sgenc.StrTrRec) :=
  alt ← index_slice (speechpb.Alternatives r) 0;
  Ret (map (λ w,
    sgenc.mkStrTrRec
      (sgenc.mkTrRec (mapDuration (speechpb.StartTime w))
         (mapDuration (speechpb.EndTime w)) (speechpb.Word w))
      (speechpb.IsFinal r) (speechpb.Confidence alt))
    (speechpb.Words alt)).

Fixpoint mapStreamSpeechResults
    (results : list speechpb.StreamingRecognitionResult)
    (acc : list sgenc.StrTrRec) : outcome (list sgenc.StrTrRec) :=
  match results with
  | [] => Ret acc
  | r :: results' =>
      recs ← mapStreamSpeechResult r;
      mapStreamSpeechResults results' (acc ++ recs)
  end.

(** What [s.sstream.Recv()] returns. *)
Inductive received : Type :=
| RecvErr (e : string)
| RecvResp (resp : speechpb.StreamingRecognizeResponse).

(** [trSess.listenTr] over the successive results of [Recv]: the records
    put on [sess.rx], and [sess.err] once the channel is closed ([None]
    while the task is still inside [Recv]). *)
Fixpoint listenTr (recvs : list received) (rx : list sgenc.StrTrRec)
  : outcome (list sgenc.StrTrRec * option string) :=
  match recvs with
  | [] => Ret (rx, None)
  | RecvErr e :: _ => Ret (rx, Some e)
  | RecvResp resp :: recvs' =>
      results ← mapStreamSpeechResults (speechpb.Results resp) [];
      listenTr recvs' (rx ++ results)
  end.

(** *** The session loop of [stream] *)

(** The errors [sessLoop] returns. *)
Inductive sessError : Type :=
| Fatal (msg : string)               (* [&fatalError{...}] *)
| SessRxClosed (e : option string)   (* "session rx was closed: %w", sess.err *)
| SessTxClosed                       (* "session tx was closed: %w", sess.err *)
| SendFailed (msg : string)          (* "unable to send audio buffer: %v" *)
| CtxErr (msg : string).             (* [ctx.Err()], not nil *)

(** What one turn of the [select] of [sessLoop] receives, with the answers
    of the remote calls made in that turn. *)
Inductive event : Type :=
(* [<-_ctx.Done()]: the result of [CloseSend], the records [sess.rx]
   still delivers before it is closed, and [ctx.Err()] at the return *)
| Deadline (closeSend : option string) (tail : list sgenc.StrTrRec)
    (ctxErr : option string)
(* [rr, ok := <-sess.rx]; [inr e] is the closed channel, with [sess.err] *)
| SessRx (rr : sgenc.StrTrRec + option string)
(* [p, ok := <-s.tx]; [None] is the closed channel; [send] is the result of
   [sstream.Send] *)
| Tx (p : option (list Byte.byte)) (send : option string).

(** [trSess], with the cancellation of [_ctx] requested by the loop. *)
Record trSess : Type := mkSess {
  bytesSent : Z;
  canceled : bool
}.

(** [stream]: [rx] holds the records sent on [s.rx], oldest first. *)
Record stream : Type := mkStream {
  timeshiftOffset : Z;
  sessionTimeout : Z;
  rx : list sgenc.StrTrRec
}.

(** How a call stands when the events run out. *)
Inductive call (A : Type) : Type :=
| Returned (a : A)
| Blocked.

Arguments Returned {A} a.
Arguments Blocked {A}.

Section Stream.

(** The method [ShiftTime] of [sgenc.StrTrRec], from the [sgenc] library;
    it mutates the record it is called on. *)
Variable ShiftTime : Z → sgenc.StrTrRec → sgenc.StrTrRec.

(** [stream.txRecognitionResults] for one record. *)
Definition txRecognitionResults (s : stream) (v : sgenc.StrTrRec) : stream :=
  mkStream (timeshiftOffset s) (sessionTimeout s)
    (rx s ++ [ShiftTime (timeshiftOffset s) v]).

(** [trSess.sendAudio] after a successful [Send]. *)
Definition sendAudio (sess : trSess) (p : list Byte.byte) : trSess :=
  mkSess (wrap64 (bytesSent sess + len p)) (canceled sess).

(** The [for { select { ... } }] of [sessLoop]. *)
Fixpoint selectLoop (evs : list event) (sess : trSess) (s : stream)
  : call (option sessError) * trSess * stream :=
  match evs with
  | [] => (Blocked, sess, s)
  | Deadline (Some e) _ _ :: _ => (Returned (Some (Fatal e)), sess, s)
  | Deadline None tail ctxErr :: _ =>
      (Returned (CtxErr <$> ctxErr), sess,
       fold_left txRecognitionResults tail s)
  | SessRx (inr e) :: _ => (Returned (Some (SessRxClosed e)), sess, s)
  | SessRx (inl rr) :: evs' =>
      selectLoop evs' sess (txRecognitionResults s rr)
  | Tx None _ :: _ => (Returned (Some SessTxClosed), sess, s)
  | Tx (Some p) (Some e) :: _ => (Returned (Some (SendFailed e)), sess, s)
  | Tx (Some p) None :: evs' =>
      let sess' := sendAudio sess p in
      let toff := computeTimeshiftOffset (bytesSent sess') in
      let sess'' :=
        if sessionTimeout s <=? toff then mkSess (bytesSent sess') true
        else sess' in
      selectLoop evs' sess'' s
  end.

(** The deferred function of [sessLoop]. *)
Definition deferred (sess : trSess) (s : stream) : stream :=
  mkStream (wrap64 (timeshiftOffset s + computeTimeshiftOffset (bytesSent sess)))
    (sessionTimeout s) (rx s).

(** [stream.sessLoop]: [opened] is the error of [openTrSession], if any.
    The session that was run is returned along with the stream. *)
Definition sessLoop (opened : option string) (evs : list event) (s : stream)
  : call (option sessError) * trSess * stream :=
  match opened with
  | Some e => (Returned (Some (Fatal e)), mkSess 0 false, s)
  | None =>
      match selectLoop evs (mkSess 0 false) s with
      | (Returned e, sess, s') => (Returned e, sess, deferred sess s')
      | (Blocked, sess, s') => (Blocked, sess, s')
      end
  end.

End Stream.

(** The shift the specification describes, used to run the model: both
    ends of the record move by the offset. *)
Definition shiftBoth (d : Z) (v : sgenc.StrTrRec) : sgenc.StrTrRec :=
  sgenc.mkStrTrRec
    (sgenc.mkTrRec (wrap64 (sgenc.Start (sgenc.base v) + d))
       (wrap64 (sgenc.End_ (sgenc.base v) + d)) (sgenc.TextRaw (sgenc.base v)))
    (sgenc.IsFinal v) (sgenc.Confidence v).

Definition word (start stop : Z) (text : string) : sgenc.StrTrRec :=
  sgenc.mkStrTrRec (sgenc.mkTrRec start stop text) true (mkFloat 0 0).

(** The ring [ringCache.set] builds from search results. *)
Definition freshRing (results : list ISR) : imageRing :=
  mkRing (map (λ v, mkTouched v false false) results) 0.

(** An entry no probe will ever accept. *)
Definition dead (Head : string → option Response) (ti : touchedImage) : Prop :=
  checked ti = false ∧ discard Head (Link (image ti)) = true.

(** An entry the scan accepts when it reaches it. *)
Definition live (Head : string → option Response) (ti : touchedImage) : Prop :=
  (checked ti = false ∧ discard Head (Link (image ti)) = false)
  ∨ (checked ti = true ∧ valid ti = true).

(** The requests the consumer holds or will receive, in the order it
    handles them. *)
Definition pending (s : pipeline) : list nat := option_list (cur s) ++ tx s.

(** A request stands for the input row at its position, possibly with
    columns appended. *)
Definition of_row (rows : list (list string)) (r : ImageRequest) : Prop :=
  ∃ row, rows !! pos r = Some row ∧ row `prefix_of` rec r.

(** What every reachable state of the pipeline satisfies. *)
Record pipeline_inv (rows : list (list string)) (s : pipeline) : Prop := {
  inv_input : input s = drop (nread s) rows;
  inv_sorted : StronglySorted lt (map pos (written (sink s)) ++ pending s);
  inv_below : Forall (λ p, (p < nread s)%nat)
                (map pos (written (sink s)) ++ pending s);
  inv_heap : ∀ p r, heap s !! p = Some r → pos r = p ∧ of_row rows r;
  inv_written : Forall (of_row rows) (written (sink s))
}.

(** Rows and services of the worked example. *)
Definition demoRows : list (list string) :=
  [["0.5"; "elephant"]; ["1.5"; "ant"]].

Definition demoSearch : string → searched :=
  λ k, Items [isr (k ++ "-1.jpg"); isr (k ++ "-2.jpg")].

Definition writeOk : list ImageRequest → list string → option string :=
  λ _ _, None.

Definition noResults : string → searched := λ _, Items [].

(** An output that breaks at the second row. *)
Definition failSecondWrite : list ImageRequest → list string → option string :=
  λ ws _, match ws with [_] => Some "broken pipe" | _ => None end.

(** What every reachable state satisfies when [tx] is unbuffered: the
    consumer holds at most one request, and only its worker can be inside
    [Run]. *)
Record serial_inv (s : pipeline) : Prop := {
  ser_one : (length (pending s) ≤ 1)%nat;
  ser_sub : ∀ p, p ∈ running s ∪ finished s → p ∈ pending s;
  ser_disj : running s ## finished s;
  ser_spawn : ∀ p, spawning s = Some p →
              pending s = [p] ∧ running s = ∅ ∧ finished s = ∅
}.

(** A stream that is five minutes into its time line, and a result that
    carries no alternative. *)
Definition demoStream : stream := mkStream 300000000000 300000000000 [].

Definition emptyResult : speechpb.StreamingRecognitionResult :=
  speechpb.mkResult [] true.

Definition buf32 : list Byte.byte := repeat Byte.x00 32.

(** One second of silence. *)
Definition oneSecond : list Byte.byte := repeat Byte.x00 (Z.to_nat 32000).

(** *** The outer loop of [stream] and its reader *)

(** The records the [select] loop forwards to [s.rx] for a list of
    events, and the bytes it sends: what is received from [sess.rx] up to
    the event that makes the loop return, with the tail drained after a
    successful [CloseSend]; the lengths of the buffers [Send] accepted. *)
Fixpoint forwarded (evs : list event) : list sgenc.StrTrRec :=
  match evs with
  | [] => []
  | Deadline None tail _ :: _ => tail
  | Deadline (Some _) _ _ :: _ => []
  | SessRx (inl rr) :: evs' => rr :: forwarded evs'
  | SessRx (inr _) :: _ => []
  | Tx (Some _) None :: evs' => forwarded evs'
  | Tx _ _ :: _ => []
  end.

Fixpoint sentBytes (evs : list event) : Z :=
  match evs with
  | Tx (Some p) None :: evs' => len p + sentBytes evs'
  | SessRx (inl _) :: evs' => sentBytes evs'
  | _ => 0
  end.

(** [errors.As(err, &ferr)] for the errors of [sessLoop]: only
    [fatalError] values are fatal; no other error wraps one. *)
Definition is_fatal (e : sessError) : bool :=
  match e with
  | Fatal _ => true
  | _ => false
  end.

(** One turn of [openSessionLoop]: how [openTrSession] ends, the events
    of the session, and whether [ctx.Err() == context.Canceled] when
    [sessLoop] has returned. *)
Record session : Type := mkSession {
  opened : option string;
  events : list event;
  canceledAfter : bool
}.

(** [stream], as its reader sees it: [s.err] and whether [s.rx] has been
    closed. *)
Record streamEnd : Type := mkStreamEnd {
  closed : bool;
  lastErr : option sessError;
  final : stream
}.

Section OuterLoop.

Variable ShiftTime : Z → sgenc.StrTrRec → sgenc.StrTrRec.

(** [stream.openSessionLoop] over the successive sessions. *)
Fixpoint openSessionLoop (sessions : list session) (s : stream)
    (e0 : option sessError) : streamEnd :=
  match sessions with
  | [] => mkStreamEnd false e0 s
  | ss :: rest =>
      match sessLoop ShiftTime (opened ss) (events ss) s with
      | (Blocked, _, s') => mkStreamEnd false e0 s'
      | (Returned None, _, s') => openSessionLoop rest s' e0
      | (Returned (Some e), _, s') =>
          if is_fatal e || canceledAfter ss
          then mkStreamEnd true (Some e) s'
          else openSessionLoop rest s' (Some e)
      end
  end.

End OuterLoop.

(** How [transcribeStream] of the [sgtr] command ends once
    [TranscribeStream] has handed it the stream: it writes the records of
    [Rx] with [w.Write] and calls [os.Exit(-1)] on a failed write or, after
    [Rx] is closed, on a stream error. *)
Inductive ending : Type :=
| Exit (code : Z)
| Return
| Reading.

Fixpoint writeAll (Write : sgenc.StrTrRec → option string)
    (recs : list sgenc.StrTrRec) : bool :=
  match recs with
  | [] => true
  | v :: recs' =>
      match Write v with
      | Some _ => false
      | None => writeAll Write recs'
      end
  end.

Definition transcribeStream (Write : sgenc.StrTrRec → option string)
    (st : streamEnd) : ending :=
  if writeAll Write (rx (final st)) then
    if closed st then
      match lastErr st with
      | Some _ => Exit (-1)
      | None => Return
      end
    else Reading
  else Exit (-1).

(** The audio the sessions of a run have sent, as the durations
    [sessLoop] adds to the offset: one term per session that was opened. *)
Fixpoint audio (sessions : list session) : Z :=
  match sessions with
  | [] => 0
  | ss :: rest =>
      match opened ss with
      | None => computeTimeshiftOffset (wrap64 (sentBytes (events ss)))
      | Some _ => 0
      end + audio rest
  end.

(** The words [mapStreamSpeechResult] maps for a result: those of the first
    alternative. *)
Definition firstWords (r : speechpb.StreamingRecognitionResult)
  : list speechpb.WordInfo :=
  match speechpb.Alternatives r with
  | alt :: _ => speechpb.Words alt
  | [] => []
  end.

(** A [Duration] message in the form the API documents: non-negative
    seconds that fit a [time.Duration], nanoseconds below one second. *)
Definition normal (d : speechpb.Duration) : Prop :=
  0 ≤ speechpb.Seconds d ≤ 9223372035 ∧ 0 ≤ speechpb.Nanos d < 10 ^ 9.

(** ** The image search client ([dic/google/search.go]) *)

(** [url.Values] is a map from parameter names to lists of values;
    [v.Set(k, x)] replaces the list by [[x]] and [v.Del(k)] removes it. *)
Definition oneOf (s : string) (l : list string) : bool :=
  existsb (String.eqb s) l.

Definition imgTypes : list string :=
  ["clipart"; "face"; "lineart"; "news"; "photo"].

Definition imgSizes : list string :=
  ["huge"; "icon"; "large"; "medium"; "small"; "xlarge"; "xxlarge"].

Definition FilterImgType (s : string) (v : gmap string (list string))
  : gmap string (list string) :=
  if oneOf s imgTypes then <["imgType" := [s]]> v else delete "imgType" v.

Definition FilterImgSize (s : string) (v : gmap string (list string))
  : gmap string (list string) :=
  if oneOf s imgSizes then <["imgSize" := [s]]> v else delete "imgSize" v.

Record SC : Type := mkSC { Key : string; Cx : string }.

(** [SC.Validate]: [None] is the nil error. *)
Definition Validate (c : SC) : option string :=
  if String.eqb (Key c) "" then Some "search client key missing"
  else if String.eqb (Cx c) "" then Some "search client cx missing"
  else None.

(** The query [SC.SearchImages] encodes into the request URL. *)
Definition searchValues (c : SC) (q : string)
    (opts : list (gmap string (list string) → gmap string (list string)))
  : gmap string (list string) :=
  let v := fold_left (λ v f, f v) opts ∅ in
  <["prettyPrint" := ["false"]]>
    (<["q" := [q]]>
       (<["searchType" := ["image"]]>
          (<["cx" := [Cx c]]> (<["key" := [Key c]]> v)))).

Section Search.

(** [client.Do] on the GET request for a query: the status code and the
    body of the response, or [None] when the request fails. *)
Variable Do : gmap string (list string) → option (Z * string).
(** [decodeISR] and the message of [decodeError], on a response body. *)
Variable decodeISR : string → searched.
Variable decodeError : string → string.

(** [SC.SearchImages]. The fixed base URL always parses and the request
    is always well formed; the cause wrapped into the error of a failed
    request is left out of the message. *)
Definition SC_SearchImages (c : SC) (q : string)
    (opts : list (gmap string (list string) → gmap string (list string)))
  : searched :=
  match Validate c with
  | Some e => SearchFailed e
  | None =>
      match Do (searchValues c q opts) with
      | None => SearchFailed "unable to contact google search"
      | Some (status, body) =>
          if status =? 200 then decodeISR body
          else SearchFailed (decodeError body)
      end
  end.

End Search.

(** A [float64] that holds the integer [n] exactly. *)
Definition holds (f : float64) (n : Z) : Prop :=
  expo f ≤ 0 ∧ mant f = n * 2 ^ (- expo f).

(** * Properties *)

(** ** Ring cache *)

Lemma index_slice_lookup {A} (l : list A) (i : Z) (x : A) :
  0 ≤ i → l !! Z.to_nat i = Some x → index_slice l i = Ret x.
Proof.
  intros Hi Hx. unfold index_slice.
  destruct (Z.leb_spec 0 i); [|lia]. by rewrite Hx.
Qed.

Lemma index_slice_in_range {A} (l : list A) (i : Z) :
  0 ≤ i < len l → ∃ x, l !! Z.to_nat i = Some x ∧ index_slice l i = Ret x.
Proof.
  intros [Hi Hl]. unfold len in Hl.
  destruct (lookup_lt_is_Some_2 l (Z.to_nat i)) as [x Hx]; [lia|].
  exists x. split; [done|]. by apply index_slice_lookup.
Qed.

Lemma len_insert {A} (l : list A) (i : nat) (x : A) : len (<[i := x]> l) = len l.
Proof. unfold len. by rewrite length_insert. Qed.

Section RingFacts.

Variable Head : string → option Response.

Lemma touch_dead ti probes :
  dead Head ti →
  ∃ ti', touch Head ti probes = (ti', probes ++ [Link (image ti)])
         ∧ valid ti' = false ∧ dead Head ti'.
Proof.
  intros [Hc Hd]. unfold touch. rewrite Hc. simpl.
  eexists. split; [reflexivity|]. rewrite Hd. by split.
Qed.

Lemma touch_live ti probes :
  live Head ti → valid (touch Head ti probes).1 = true
            ∧ image (touch Head ti probes).1 = image ti.
Proof.
  intros [[Hc Hd]|[Hc Hv]]; unfold touch; rewrite Hc; simpl; [|done].
  by rewrite Hd.
Qed.

(** The flag [checked] is only ever read. *)
Lemma touch_checked ti probes :
  checked (touch Head ti probes).1 = checked ti.
Proof. unfold touch. destruct (checked ti) eqn:E; simpl; congruence. Qed.

(** On a ring of two or more dead entries the scan never leaves the
    loop, whatever the fuel. *)
Lemma scan_dead_spins fuel : ∀ l i probes,
  2 ≤ len l → 0 ≤ i < len l - 1 → Forall (dead Head) l →
  scan Head fuel l i probes = Spin.
Proof.
  induction fuel as [|fuel IH]; intros l i probes Hn Hi Hall; [done|].
  simpl. destruct (Z.ltb_spec i (len l)); [|lia].
  destruct (index_slice_in_range l i) as (ti & Hlk & ->); [lia|].
  simpl. rewrite Forall_lookup in Hall.
  destruct (touch_dead ti probes (Hall _ _ Hlk)) as (ti' & -> & Hv & Hd).
  rewrite Hv. unfold go_rem.
  destruct (Z.eqb_spec (len l - 1) 0); [lia|]. simpl.
  apply IH.
  - by rewrite len_insert.
  - rewrite len_insert.
    pose proof (Z.rem_bound_pos (i + 1) (len l - 1)). lia.
  - apply Forall_insert; [|done]. by apply Forall_lookup.
Qed.

(** With a live entry under the cursor, [imageRing.next] returns it and
    moves the cursor by [% (len - 1)]. *)
Lemma next_live_cursor fuel ir probes ti :
  2 ≤ len (all ir) → 0 ≤ index ir →
  all ir !! Z.to_nat (index ir) = Some ti → live Head ti →
  ∃ l' probes',
    imageRing_next Head (S fuel) ir probes
    = Ret (Some (image ti),
           mkRing l' (Z.rem (index ir + 1) (len (all ir) - 1)), probes').
Proof.
  intros Hn Hi Hlk Hlive. unfold imageRing_next.
  destruct (Z.eqb_spec (len (all ir)) 0); [lia|].
  assert (Hlt : index ir < len (all ir)).
  { apply lookup_lt_Some in Hlk. unfold len. lia. }
  simpl. destruct (Z.ltb_spec (index ir) (len (all ir))); [|lia].
  rewrite (index_slice_lookup _ _ _ Hi Hlk). simpl.
  destruct (touch_live ti probes Hlive) as [Hv Him].
  destruct (touch Head ti probes) as [ti' probes'] eqn:Ht. simpl in *.
  rewrite Hv. simpl.
  rewrite (index_slice_lookup _ _ ti' Hi).
  2:{ apply list_lookup_insert_eq. by apply lookup_lt_Some in Hlk. }
  simpl. rewrite len_insert. unfold go_rem.
  destruct (Z.eqb_spec (len (all ir) - 1) 0); [lia|]. simpl.
  rewrite Him. eauto.
Qed.

End RingFacts.

Lemma ringCache_next_hit Head fuel k m probes ring i ring' probes' :
  m !! k = Some ring →
  imageRing_next Head fuel ring probes = Ret (Some i, ring', probes') →
  ringCache_next Head fuel k m probes = Ret (Some i, <[k := ring']> m, probes').
Proof. intros Hk Hn. unfold ringCache_next. by rewrite Hk, Hn. Qed.

Lemma ringCache_next_absent Head fuel k m probes :
  m !! k = None → ringCache_next Head fuel k m probes = Ret (None, m, probes).
Proof. intros Hk. unfold ringCache_next. by rewrite Hk. Qed.

(** C1. The claim is that two successive [next] calls on a ring of valid
    entries return positions [i] and [(i+1) mod n]. On the source they do
    not: the cursor is advanced modulo [n - 1]. On the ring [[a; b]] with
    both entries valid, the first call returns [a] and leaves the cursor at
    [0], so the second call returns [a] again, never [b]; on the ring [[a]]
    the cursor update divides by zero. *)
Theorem ring_two_live_repeats_first :
  ∃ r1 r2,
    imageRing_next allLive 1 (freshRing [isr "a"; isr "b"]) []
      = Ret (Some (isr "a"), r1, ["a"])
    ∧ index r1 = 0
    ∧ imageRing_next allLive 1 r1 ["a"] = Ret (Some (isr "a"), r2, ["a"; "a"])
    ∧ index r2 = 0
    ∧ ∀ fuel, imageRing_next allLive (S fuel) (freshRing [isr "a"]) []
        = Panic "integer divide by zero".
Proof.
  eexists _, _. split; [vm_compute; reflexivity|].
  split; [reflexivity|]. split; [vm_compute; reflexivity|].
  split; [reflexivity|]. intros fuel. reflexivity.
Qed.

(** C2. The claim is that [next(q)] on an entry without any valid URL
    completes, evicts the entry and reports a miss. On the source it never
    returns: right after [set(q, results)] with every result rejected by
    the probe, a ring of one entry panics on [% 0] at the first loop
    increment, and a ring of two or more entries stays in the scan loop for
    every amount of fuel; the entry is not evicted. *)
Theorem next_all_dead_never_returns Head fuel q results m probes :
  results ≠ [] →
  Forall (λ v, discard Head (Link v) = true) results →
  ringCache_next Head fuel q (ringCache_set q results m) probes
  = if (length results =? 1)%nat && negb (fuel =? 0)%nat
    then Panic "integer divide by zero" else Spin.
Proof.
  intros Hne Hdead. unfold ringCache_next, ringCache_set.
  rewrite lookup_insert_eq. unfold imageRing_next. simpl.
  destruct results as [|a [|b results]]; [done| |].
  - (* one entry *)
    simpl. destruct fuel as [|fuel]; [done|]. simpl.
    unfold touch. simpl. unfold index_slice. simpl.
    apply Forall_cons in Hdead as [-> _]. done.
  - (* two or more entries *)
    replace ((length (a :: b :: results) =? 1)%nat) with false by done.
    simpl andb. cbv iota.
    destruct (Z.eqb_spec (len (map (λ v, mkTouched v false false)
                                  (a :: b :: results))) 0) as [E|_].
    { unfold len in E. simpl in E. lia. }
    rewrite scan_dead_spins; [done| | |].
    + unfold len. simpl. lia.
    + unfold len. simpl. lia.
    + apply Forall_fmap. eapply Forall_impl; [exact Hdead|].
      intros v Hv. by split.
Qed.

Lemma next_all_dead_never_returns_witness :
  ringCache_next allDead 7 "cat"
    (ringCache_set "cat" [isr "a"; isr "b"] ∅) [] = Spin
  ∧ ringCache_next allDead 7 "cat" (ringCache_set "cat" [isr "a"] ∅) []
    = Panic "integer divide by zero".
Proof.
  split.
  - apply (next_all_dead_never_returns allDead 7 "cat" [isr "a"; isr "b"] ∅ []).
    + discriminate.
    + repeat constructor.
  - apply (next_all_dead_never_returns allDead 7 "cat" [isr "a"] ∅ []).
    + discriminate.
    + repeat constructor.
Defined.

(** C3. The claim is that an entry is probed the first time the cursor
    touches it, [checked] is set, and it is never probed again. On the
    source [checked] is read and never written: after
    [set(q, [a; b])] with both links valid, two [next(q)] calls HEAD-probe
    [a] twice, and both entries still have [checked = false]. *)
Theorem checked_is_never_set :
  let m0 := ringCache_set "q" [isr "a"; isr "b"] ∅ in
  ∃ r1 r2,
    ringCache_next allLive 1 "q" m0 []
      = Ret (Some (isr "a"), <["q" := r1]> m0, ["a"])
    ∧ ringCache_next allLive 1 "q" (<["q" := r1]> m0) ["a"]
      = Ret (Some (isr "a"), <["q" := r2]> (<["q" := r1]> m0), ["a"; "a"])
    ∧ map checked (all r2) = [false; false].
Proof.
  intros m0. eexists _, _. split; [|split].
  - eapply ringCache_next_hit; [apply lookup_insert_eq|].
    vm_compute. reflexivity.
  - eapply ringCache_next_hit; [apply lookup_insert_eq|].
    vm_compute. reflexivity.
  - reflexivity.
Qed.

(** No call of [imageRing.next] changes a [checked] flag. *)
Lemma scan_keeps_checked Head fuel : ∀ l i probes found l' probes',
  scan Head fuel l i probes = Ret (found, l', probes') →
  map checked l' = map checked l.
Proof.
  induction fuel as [|fuel IH]; intros l i probes found l' probes' H; [done|].
  simpl in H. destruct (i <? len l); [|by inversion H].
  unfold index_slice in H. destruct (0 <=? i); [|done].
  destruct (l !! Z.to_nat i) as [ti|] eqn:Hlk; [|done]. simpl in H.
  pose proof (touch_checked Head ti probes) as Hc.
  destruct (touch Head ti probes) as [ti' p']. simpl in Hc.
  assert (Hm : map checked (<[Z.to_nat i := ti']> l) = map checked l).
  { change (checked <$> <[Z.to_nat i := ti']> l = checked <$> l).
    rewrite list_fmap_insert, Hc. apply list_insert_id.
    by rewrite list_lookup_fmap, Hlk. }
  destruct (valid ti').
  - inversion H; subst. exact Hm.
  - unfold go_rem in H. destruct (len l - 1 =? 0); [done|]. simpl in H.
    apply IH in H. by rewrite H.
Qed.

(** C8. A probed entry gets [valid = false] exactly when the HEAD request
    fails, or answers with a status of 400 or more, or with a content type
    that does not contain "image". Status 399 with an image type is valid,
    status 400 is not, [text/html] is not, [image/jpeg] below 400 is. *)
Theorem probe_marks_invalid_iff Head ti probes :
  checked ti = false →
  (valid (touch Head ti probes).1 = false ↔
     Head (Link (image ti)) = None
     ∨ ∃ resp, Head (Link (image ti)) = Some resp
               ∧ (400 ≤ StatusCode resp
                  ∨ Contains (ContentType resp) "image" = false))
  ∧ (touch Head ti probes).2 = probes ++ [Link (image ti)]
  ∧ discardResp (Some (mkResponse 399 "image/jpeg")) = false
  ∧ discardResp (Some (mkResponse 400 "image/jpeg")) = true
  ∧ discardResp (Some (mkResponse 200 "text/html")) = true
  ∧ discardResp (Some (mkResponse 200 "image/jpeg")) = false.
Proof.
  intros Hc. unfold touch. rewrite Hc. simpl.
  split; [|by repeat split].
  unfold discard, discardResp.
  destruct (Head (Link (image ti))) as [resp|]; simpl.
  - destruct (Z.leb_spec 400 (StatusCode resp)); simpl.
    + split; [|done]. intros _. right. exists resp. split; [done|]. by left.
    + rewrite negb_involutive. split.
      * intros Hn. right. exists resp. split; [done|]. by right.
      * intros [?|(resp' & [= <-] & [?|?])]; [done|lia|done].
  - split; [|done]. intros _. by left.
Qed.

Lemma probe_marks_invalid_iff_witness :
  valid (touch allDead (mkTouched (isr "a") false false) []).1 = false.
Proof.
  destruct (probe_marks_invalid_iff allDead
              (mkTouched (isr "a") false false) [] eq_refl) as [[_ Hinv] _].
  apply Hinv. right. exists (mkResponse 404 "text/html").
  split; [reflexivity|]. left. simpl. lia.
Defined.

(** C9. After [set(q, [])] the next [next(q)] is a miss, and that call
    removes the empty ring from the cache. *)
Theorem set_empty_then_next_misses Head fuel q m probes :
  ringCache_next Head fuel q (ringCache_set q [] m) probes
  = Ret (None, delete q m, probes)
  ∧ delete q m !! q = None.
Proof.
  unfold ringCache_next, ringCache_set. rewrite lookup_insert_eq. simpl.
  rewrite delete_insert_eq. split; [done|]. apply lookup_delete_eq.
Qed.

(** ** Annotation pipeline *)

Section PipelineFacts.

Variable Head : string → option Response.
Variable SearchImages : string → searched.
Variable Write : list ImageRequest → list string → option string.
Variable txcap : nat.
Variable col : Z.

(** [Run] keeps the identity of the request and only ever appends to its
    record. *)
Lemma Run_keeps_row fuel r m probes r' m' probes' :
  Run Head SearchImages fuel r m probes = Ret (r', m', probes') →
  pos r' = pos r ∧ rec r `prefix_of` rec r'.
Proof.
  unfold Run. intros H.
  destruct (len (rec r) <=? c r); [by inversion H|].
  destruct (index_slice (rec r) (c r)) as [k| |]; [|done..]. simpl in H.
  destruct (ringCache_next Head fuel k m probes)
    as [[[[i|] m1] p1]| |]; [| |done..]; simpl in H.
  { inversion H. split; [done|]. by apply prefix_app_r. }
  destruct (SearchImages k) as [items|e]; [|by inversion H].
  destruct (len items =? 0).
  { inversion H. split; [done|]. by apply prefix_app_r. }
  destruct (ringCache_next Head fuel k (ringCache_set k items m1) p1)
    as [[[[i|] m3] p3]| |]; [| |done..]; simpl in H;
    inversion H; (split; [done|]); by apply prefix_app_r.
Qed.

(** A request that carries an error is logged and nothing is written. *)
Lemma consume_error w r e :
  err r = Some e →
  consume Write w r = mkWriter (written w) (logged w ++ [e]) (critical w).
Proof. intros He. unfold consume. by rewrite He. Qed.

(** The consumer only ever appends the request it was given. *)
Lemma consume_written w r :
  written (consume Write w r) = written w
  ∨ written (consume Write w r) = written w ++ [r].
Proof.
  unfold consume. destruct (err r); [by left|].
  destruct (Write (written w) (rec r)); [by left|by right].
Qed.

Lemma start_inv rows : pipeline_inv rows (start rows).
Proof.
  split; simpl; try done.
  - constructor.
Qed.

Lemma drop_cons_inv {A} (l : list A) n x rest :
  x :: rest = drop n l → l !! n = Some x ∧ rest = drop (S n) l.
Proof.
  intros H. split.
  - rewrite <- (Nat.add_0_r n), <- lookup_drop, <- H. done.
  - replace (S n) with (n + 1)%nat by lia.
    rewrite <- drop_drop, <- H. done.
Qed.

Lemma sorted_snoc (l : list nat) n :
  StronglySorted lt l → Forall (λ p, (p < n)%nat) l →
  StronglySorted lt (l ++ [n]).
Proof.
  induction 1 as [|x l Hs IH Hx]; intros Hb; simpl.
  - repeat constructor.
  - apply Forall_cons in Hb as [Hxn Hb]. constructor; [by apply IH|].
    apply Forall_app. split; [done|by constructor].
Qed.

Lemma sorted_drop_middle (l1 l2 : list nat) p :
  StronglySorted lt (l1 ++ p :: l2) → StronglySorted lt (l1 ++ l2).
Proof.
  induction l1 as [|x l1 IH]; simpl; intros H.
  - by inversion H.
  - inversion H as [|? ? Hs Hx]; subst. constructor; [by apply IH|].
    apply Forall_app in Hx as [H1 H2]. apply Forall_cons in H2 as [_ H2].
    apply Forall_app. by split.
Qed.

Lemma step_inv rows s s' :
  step Head SearchImages Write txcap col s s' →
  pipeline_inv rows s → pipeline_inv rows s'.
Proof.
  intros Hstep [Hin Hso Hbe Hhe Hwr].
  destruct Hstep; simpl in *; unfold pending in *; simpl in *.
  - (* send *)
    apply drop_cons_inv in Hin as [Hrow Hrest].
    split; simpl; unfold pending; simpl; try done.
    + rewrite !app_assoc. apply sorted_snoc; by rewrite <- ?app_assoc.
    + rewrite !app_assoc. apply Forall_app. split.
      * rewrite <- app_assoc. eapply Forall_impl; [exact Hbe|].
        simpl. lia.
      * repeat constructor.
    + intros p r. rewrite lookup_insert. case_decide as Hp.
      * intros [= <-]. subst. simpl. split; [done|].
        exists row. by split.
      * apply Hhe.
  - (* spawn *)
    by split.
  - (* finish *)
    split; simpl; try done.
    intros p' r0. rewrite lookup_insert. case_decide as Hp; [|apply Hhe].
    intros [= <-]. subst p'.
    match goal with
    | HR : Run _ _ _ _ _ _ = _, Hl : _ !! p = Some r |- _ =>
        apply Run_keeps_row in HR as [Hpos Hpre];
        destruct (Hhe _ _ Hl) as [Hp (row & Hrow & Hrowpre)]
    end.
    split; [congruence|]. exists row. rewrite Hpos. split; [done|].
    by etrans.
  - (* recv *)
    by split.
  - (* wait *)
    match goal with
    | Hl : _ !! p = Some r |- _ => destruct (Hhe _ _ Hl) as [Hp Hrow]
    end.
    destruct (consume_written w r) as [Hw|Hw].
    + split; simpl; unfold pending; simpl; rewrite ?Hw; try done.
      * by apply sorted_drop_middle in Hso.
      * apply Forall_app in Hbe as [H1 H2].
        apply Forall_cons in H2 as [_ H2]. apply Forall_app. by split.
    + split; simpl; unfold pending; simpl; rewrite ?Hw; try done.
      * rewrite map_app. simpl. rewrite Hp, <- app_assoc. done.
      * rewrite map_app. simpl. rewrite Hp, <- app_assoc. done.
      * apply Forall_app. split; [done|]. by constructor.
Qed.

Lemma reachable_inv rows s :
  rtc (step Head SearchImages Write txcap col) (start rows) s →
  pipeline_inv rows s.
Proof.
  revert s. apply rtc_ind_r.
  - apply start_inv.
  - intros y z _ Hstep Hy. by eapply step_inv.
Qed.

Lemma sorted_lookup_lt (l : list nat) i j x y :
  StronglySorted lt l → l !! i = Some x → l !! j = Some y →
  (x < y)%nat → (i < j)%nat.
Proof.
  intros Hs. revert i j. induction Hs as [|a l Hs IH Ha]; [done|].
  intros [|i] [|j]; simpl; intros Hi Hj Hlt.
  - inversion Hi; inversion Hj; lia.
  - lia.
  - inversion Hj; subst. rewrite Forall_lookup in Ha.
    specialize (Ha _ _ Hi). lia.
  - specialize (IH i j Hi Hj Hlt). lia.
Qed.

End PipelineFacts.

(** A complete run of the pipeline on [demoRows]: both rows are looked up
    and written. *)
Lemma demo_run :
  ∃ s, rtc (step allLive demoSearch writeOk 0 1) (start demoRows) s
       ∧ input s = []
       ∧ written (sink s)
         = [mkRequest 0 1 ["0.5"; "elephant"; "elephant-1.jpg"] None;
            mkRequest 1 1 ["1.5"; "ant"; "ant-1.jpg"] None].
Proof.
  eexists. split.
  - unfold start, demoRows.
    eapply rtc_l. { apply step_send. right. done. }
    eapply rtc_l. { apply step_recv. done. }
    eapply rtc_l. { apply step_spawn. vm_compute. lia. }
    eapply rtc_l.
    { eapply (step_finish _ _ _ _ _ _ _ _ _ _ 0%nat _ _ 1%nat ∅ []).
      - set_solver.
      - apply lookup_insert_eq.
      - vm_compute. reflexivity. }
    eapply rtc_l. { eapply step_wait; [set_solver|apply lookup_insert_eq]. }
    eapply rtc_l. { apply step_send. right. done. }
    eapply rtc_l. { apply step_recv. done. }
    eapply rtc_l. { apply step_spawn. vm_compute. lia. }
    eapply rtc_l.
    { eapply (step_finish _ _ _ _ _ _ _ _ _ _ 1%nat _ _ 1%nat ∅ []).
      - set_solver.
      - apply lookup_insert_eq.
      - vm_compute. reflexivity. }
    eapply rtc_l. { eapply step_wait; [set_solver|apply lookup_insert_eq]. }
    apply rtc_refl.
  - split; reflexivity.
Qed.

(** C6. Of any two rows that are both written, the one that comes first in
    the input is written first, whatever the order in which the workers
    finish; every written record is its input row with columns appended. *)
Theorem output_keeps_input_order
    Head SearchImages Write txcap col rows s i j r1 r2 :
  rtc (step Head SearchImages Write txcap col) (start rows) s →
  written (sink s) !! i = Some r1 →
  written (sink s) !! j = Some r2 →
  (pos r1 < pos r2)%nat →
  (i < j)%nat ∧ of_row rows r1 ∧ of_row rows r2.
Proof.
  intros Hreach Hi Hj Hlt.
  apply reachable_inv in Hreach as [_ Hso _ _ Hwr].
  split.
  - apply StronglySorted_app_1_l in Hso.
    eapply (sorted_lookup_lt (map pos (written (sink s)))); [done| | |done].
    + change ((pos <$> written (sink s)) !! i = Some (pos r1)).
      by rewrite list_lookup_fmap, Hi.
    + change ((pos <$> written (sink s)) !! j = Some (pos r2)).
      by rewrite list_lookup_fmap, Hj.
  - rewrite Forall_lookup in Hwr. split; eauto.
Qed.

Lemma output_keeps_input_order_witness :
  (0 < 1)%nat
  ∧ of_row demoRows (mkRequest 0 1 ["0.5"; "elephant"; "elephant-1.jpg"] None)
  ∧ of_row demoRows (mkRequest 1 1 ["1.5"; "ant"; "ant-1.jpg"] None).
Proof.
  destruct demo_run as (s & Hrun & _ & Hw).
  apply (output_keeps_input_order allLive demoSearch writeOk 0 1 demoRows s
           0 1 _ _ Hrun).
  - rewrite Hw. reflexivity.
  - rewrite Hw. reflexivity.
  - simpl. lia.
Defined.

(** C7. A lookup that ends with a non-critical error (the search fails,
    or it returns no result) leaves the request with an error; the consumer
    then logs the error, writes nothing for the record, not even with an
    empty URL, and goes on with the following requests. *)
Theorem noncritical_error_drops_record
    Head SearchImages Write fuel r m probes k m1 p1 w rest :
  index_slice (rec r) (c r) = Ret k →
  ringCache_next Head fuel k m probes = Ret (None, m1, p1) →
  (∃ e, SearchImages k = SearchFailed e)
  ∨ (∃ items, SearchImages k = Items items ∧ len items = 0) →
  critical w = None →
  ∃ r' e,
    Run Head SearchImages fuel r m probes = Ret (r', m1, p1)
    ∧ err r' = Some e
    ∧ consume Write w r' = mkWriter (written w) (logged w ++ [e]) None
    ∧ enqueueImageRequest Write (r' :: rest) w
      = enqueueImageRequest Write rest
          (mkWriter (written w) (logged w ++ [e]) None).
Proof.
  intros Hk Hmiss Hsearch Hw.
  assert (Hcol : (len (rec r) <=? c r) = false).
  { unfold index_slice in Hk. destruct (0 <=? c r) eqn:E; [|done].
    destruct (rec r !! Z.to_nat (c r)) eqn:El; [|done].
    apply lookup_lt_Some in El. apply Z.leb_le in E.
    apply Z.leb_gt. unfold len. lia. }
  assert (Hrun : ∃ r' e,
    Run Head SearchImages fuel r m probes = Ret (r', m1, p1)
    ∧ err r' = Some e).
  { unfold Run. rewrite Hcol, Hk. simpl. rewrite Hmiss. simpl.
    destruct Hsearch as [[e ->]|(items & -> & Hz)].
    - by eexists _, _.
    - apply Z.eqb_eq in Hz. rewrite Hz. by eexists _, _. }
  destruct Hrun as (r' & e & Hrun & He). exists r', e.
  split; [done|]. split; [done|].
  assert (Hc : consume Write w r'
               = mkWriter (written w) (logged w ++ [e]) None).
  { rewrite (consume_error _ _ _ _ He). by rewrite Hw. }
  split; [done|]. simpl. by rewrite Hc.
Qed.

Lemma noncritical_error_drops_record_witness :
  ∃ r' e,
    Run allLive noResults 0 (mkRequest 0 1 ["0.5"; "zyx"] None) ∅ []
      = Ret (r', ∅, [])
    ∧ err r' = Some e
    ∧ consume writeOk (mkWriter [] [] None) r' = mkWriter [] ([] ++ [e]) None
    ∧ enqueueImageRequest writeOk
        (r' :: [mkRequest 1 1 ["1.5"; "ant"; "ant-1.jpg"] None])
        (mkWriter [] [] None)
      = enqueueImageRequest writeOk
          [mkRequest 1 1 ["1.5"; "ant"; "ant-1.jpg"] None]
          (mkWriter [] ([] ++ [e]) None).
Proof.
  apply (noncritical_error_drops_record allLive noResults writeOk 0
           (mkRequest 0 1 ["0.5"; "zyx"] None) ∅ [] "zyx" ∅ []
           (mkWriter [] [] None)).
  - reflexivity.
  - apply ringCache_next_absent. apply lookup_empty.
  - right. exists []. split; reflexivity.
  - reflexivity.
Defined.

(** ** Streaming transcription *)

Lemma wrap64_in_range z : - 2 ^ 63 ≤ z ≤ MaxInt64 → wrap64 z = z.
Proof.
  unfold wrap64, MaxInt64. intros H. rewrite Z.mod_small; lia.
Qed.

Lemma rne_nonneg n d : 0 ≤ n → 0 < d → 0 ≤ rne n d.
Proof.
  intros Hn Hd. unfold rne.
  assert (0 ≤ n / d) by (apply Z.div_pos; lia).
  repeat case_match; lia.
Qed.

Lemma round_b64_nonneg n d : 0 ≤ n → 0 < d → 0 ≤ mant (round_b64 n d).
Proof.
  intros Hn Hd. unfold round_b64.
  destruct (Z.eqb_spec n 0); [done|]. simpl.
  rewrite Z.sgn_pos, Z.mul_1_l by lia.
  rewrite Z.abs_eq by lia.
  case_match.
  - apply rne_nonneg; [lia|]. apply Z.mul_pos_pos; [done|].
    apply Z.pow_pos_nonneg; lia.
  - apply rne_nonneg; [|done]. apply Z.mul_nonneg_nonneg; [done|].
    apply Z.pow_nonneg. lia.
Qed.

Lemma fdiv_nonneg a b : 0 ≤ mant a → 0 < mant b → 0 ≤ mant (fdiv a b).
Proof.
  intros Ha Hb. unfold fdiv.
  rewrite Z.sgn_pos, Z.mul_1_l, Z.abs_eq by lia.
  case_match.
  - apply round_b64_nonneg; [|done]. apply Z.mul_nonneg_nonneg; [done|].
    apply Z.pow_nonneg. lia.
  - apply round_b64_nonneg; [done|]. apply Z.mul_pos_pos; [done|].
    apply Z.pow_pos_nonneg; [lia|]. 
    match goal with H : (_ <=? _) = false |- _ => apply Z.leb_gt in H end.
    lia.
Qed.

Lemma ParseDuration_nonneg x d :
  0 ≤ mant x → ParseDuration (Sprintf_f x) = Some d → 0 ≤ d.
Proof.
  intros Hx. unfold ParseDuration, Sprintf_f. simpl.
  destruct (Z.ltb_spec (mant x) 0); [lia|].
  set (u := if 0 <=? expo x then _ else _).
  assert (Hu : 0 ≤ u).
  { unfold u. rewrite Z.abs_eq by done. case_match.
    - apply Z.mul_nonneg_nonneg; [|lia].
      apply Z.mul_nonneg_nonneg; [done|]. apply Z.pow_nonneg. lia.
    - apply rne_nonneg; [lia|]. apply Z.pow_pos_nonneg; [lia|].
      match goal with H : (_ <=? _) = false |- _ => apply Z.leb_gt in H end.
      lia. }
  assert (0 ≤ u / 10 ^ 6) by (apply Z.div_pos; lia).
  assert (0 ≤ u mod 10 ^ 6) by (apply Z.mod_pos_bound; lia).
  repeat case_match; intros [= <-]; lia.
Qed.

(** A non-negative byte count maps to a non-negative duration. *)
Lemma computeTimeshiftOffset_nonneg b :
  0 ≤ b → 0 ≤ computeTimeshiftOffset b.
Proof.
  intros Hb. unfold computeTimeshiftOffset.
  set (byteRate := fdiv (float_of_int inBitrate) (float_of_int 8)).
  assert (Hr : 0 < mant byteRate) by (vm_compute; reflexivity).
  destruct (is_zero byteRate); [done|].
  set (secs := fdiv (float_of_int b) byteRate).
  assert (Hs : 0 ≤ mant secs).
  { apply fdiv_nonneg; [|done]. apply round_b64_nonneg; lia. }
  destruct (is_zero secs); [done|].
  destruct (ParseDuration (Sprintf_f secs)) as [d|] eqn:E; [|done].
  by eapply ParseDuration_nonneg.
Qed.

Section StreamFacts.

Variable ShiftTime : Z → sgenc.StrTrRec → sgenc.StrTrRec.

(** Draining a list of records sends each one shifted by the offset the
    stream has at that moment, which the drain does not change. *)
Lemma drain_shifts tail : ∀ s,
  fold_left (txRecognitionResults ShiftTime) tail s
  = mkStream (timeshiftOffset s) (sessionTimeout s)
      (rx s ++ map (ShiftTime (timeshiftOffset s)) tail).
Proof.
  induction tail as [|v tail IH]; intros s; simpl.
  - rewrite app_nil_r. by destruct s.
  - rewrite IH. simpl. by rewrite <- app_assoc.
Qed.

(** Nothing inside the [select] loop writes [timeshiftOffset]. *)
Lemma selectLoop_keeps_offset evs : ∀ sess s r sess' s',
  selectLoop ShiftTime evs sess s = (r, sess', s') →
  timeshiftOffset s' = timeshiftOffset s
  ∧ sessionTimeout s' = sessionTimeout s.
Proof.
  induction evs as [|ev evs IH]; intros sess s r sess' s' H; simpl in H.
  - by inversion H.
  - destruct ev as [[e|] tail ctxErr|[rr|e]|[p|] [e|]];
      try (by inversion H).
    + inversion H. by rewrite drain_shifts.
    + apply IH in H. simpl in H. done.
    + by apply IH in H.
Qed.

(** A loop that is still waiting goes on with the events that follow. *)
Lemma selectLoop_app pre : ∀ evs sess s sess1 s1,
  selectLoop ShiftTime pre sess s = (Blocked, sess1, s1) →
  selectLoop ShiftTime (pre ++ evs) sess s
  = selectLoop ShiftTime evs sess1 s1.
Proof.
  induction pre as [|ev pre IH]; intros evs sess s sess1 s1 H; simpl in H.
  - by inversion H.
  - destruct ev as [[e|] tail ctxErr|[rr|e]|[p|] [e|]];
      try (by inversion H); simpl; by apply IH.
Qed.

End StreamFacts.

(** C4, with the condition the source puts on it. When the deadline fires
    and [CloseSend] succeeds, every record the session still delivers is
    forwarded to [rx] shifted by the offset the stream had before the
    rotation; the offset grows by the duration of the bytes sent only once
    that drain is over. *)
Theorem tail_drained_with_old_offset
    ShiftTime pre tail ctxErr s sess1 s1 :
  selectLoop ShiftTime pre (mkSess 0 false) s = (Blocked, sess1, s1) →
  sessLoop ShiftTime None (pre ++ [Deadline None tail ctxErr]) s
  = (Returned (CtxErr <$> ctxErr), sess1,
     mkStream
       (wrap64 (timeshiftOffset s + computeTimeshiftOffset (bytesSent sess1)))
       (sessionTimeout s)
       (rx s1 ++ map (ShiftTime (timeshiftOffset s)) tail)).
Proof.
  intros Hpre. unfold sessLoop.
  rewrite (selectLoop_app _ _ _ _ _ _ _ Hpre). simpl.
  apply selectLoop_keeps_offset in Hpre as [Ho Ht].
  rewrite drain_shifts. unfold deferred. simpl. by rewrite Ho, Ht.
Qed.

Lemma tail_drained_with_old_offset_witness :
  sessLoop shiftBoth None
    ([Tx (Some buf32) None; SessRx (inl (word 500000000 900000000 "ciao"))]
     ++ [Deadline None [word 4990000000 4995000000 "fine"] None]) demoStream
  = (Returned None, mkSess 32 false,
     mkStream 300001000000 300000000000
       [word 300500000000 300900000000 "ciao";
        word 304990000000 304995000000 "fine"]).
Proof.
  refine (eq_trans
    (tail_drained_with_old_offset shiftBoth
       [Tx (Some buf32) None;
        SessRx (inl (word 500000000 900000000 "ciao"))]
       [word 4990000000 4995000000 "fine"] None demoStream
       (mkSess 32 false)
       (mkStream 300000000000 300000000000
          [shiftBoth 300000000000 (word 500000000 900000000 "ciao")]) _) _).
  - vm_compute. reflexivity.
  - vm_compute. reflexivity.
Defined.

(** C4, as worded, does not hold when [CloseSend] fails at the deadline:
    [sessLoop] then returns the fatal error at once, so the word the remote
    still had to deliver never reaches [rx], while the deferred update has
    moved the offset by the millisecond of audio that was sent. *)
Lemma tail_lost_when_close_send_fails :
  sessLoop shiftBoth None
    [Tx (Some buf32) None;
     Deadline (Some "transport is closing")
       [word 4990000000 4995000000 "fine"] None] demoStream
  = (Returned (Some (Fatal "transport is closing")), mkSess 32 false,
     mkStream 300001000000 300000000000 [])
  ∧ shiftBoth 300000000000 (word 4990000000 4995000000 "fine")
    ∉ rx (mkStream 300001000000 300000000000 []).
Proof.
  split; [vm_compute; reflexivity|]. simpl. apply not_elem_of_nil.
Qed.

(** C5. [timeshiftOffset] never goes back: a session-loop iteration that
    returns leaves it at least where it was, because the duration added for
    a non-negative byte count is non-negative. The sum is taken in [int64];
    the statement is for the iterations whose new offset is in range, which
    are all the iterations of a run that starts at offset zero and carries
    less than [2^63] ns, some 292 years, of audio. *)
Theorem timeshift_offset_monotone ShiftTime opened evs s e sess s' :
  sessLoop ShiftTime opened evs s = (Returned e, sess, s') →
  0 ≤ bytesSent sess →
  - 2 ^ 63 ≤ timeshiftOffset s →
  timeshiftOffset s + computeTimeshiftOffset (bytesSent sess) ≤ MaxInt64 →
  0 ≤ computeTimeshiftOffset (bytesSent sess)
  ∧ timeshiftOffset s ≤ timeshiftOffset s'.
Proof.
  intros Hrun Hb Hlo Hhi.
  pose proof (computeTimeshiftOffset_nonneg _ Hb) as Hd.
  split; [done|]. unfold sessLoop in Hrun.
  destruct opened as [err|].
  - inversion Hrun. lia.
  - destruct (selectLoop ShiftTime evs (mkSess 0 false) s)
      as [[[r|] sess0] s0] eqn:E; [|done].
    inversion Hrun; subst. apply selectLoop_keeps_offset in E as [Ho _].
    unfold deferred. simpl. rewrite Ho, wrap64_in_range; lia.
Qed.

Lemma timeshift_offset_monotone_witness :
  0 ≤ computeTimeshiftOffset 32
  ∧ 300000000000
    ≤ timeshiftOffset
        (mkStream (wrap64 (300000000000 + computeTimeshiftOffset 32))
           300000000000 []).
Proof.
  apply (timeshift_offset_monotone shiftBoth None
           [Tx (Some buf32) None; Deadline None [] None] demoStream
           None (mkSess 32 false)).
  - vm_compute. reflexivity.
  - simpl. lia.
  - vm_compute. discriminate.
  - vm_compute. discriminate.
Defined.

Lemma mapStreamSpeechResults_panics r results : ∀ acc,
  speechpb.Alternatives r = [] → r ∈ results →
  mapStreamSpeechResults results acc = Panic "index out of range".
Proof.
  intros acc Hr Hin. revert acc.
  induction results as [|r0 results IH]; intros acc; [by inversion Hin|].
  simpl. unfold mapStreamSpeechResult, index_slice. simpl.
  destruct (speechpb.Alternatives r0) as [|alt alts] eqn:E; simpl; [done|].
  apply IH. apply elem_of_cons in Hin as [->|Hin]; [congruence|done].
Qed.

(** C10. [mapStreamSpeechResult] returns only for a result that carries an
    alternative. On a result without alternatives it indexes
    [Alternatives[0]] out of range, and so does the listener task for any
    response holding such a result; the batch mapper [mapSpeechResults]
    returns the empty list there. *)
Theorem stream_mapper_needs_an_alternative r :
  (speechpb.Alternatives r = [] →
     mapStreamSpeechResult r = Panic "index out of range"
     ∧ (∀ e results recvs rx, r ∈ results →
          listenTr (RecvResp (speechpb.mkResponse e results) :: recvs) rx
          = Panic "index out of range")
     ∧ mapSpeechResults (speechpb.Alternatives r) = [])
  ∧ (speechpb.Alternatives r ≠ [] →
     ∃ recs, mapStreamSpeechResult r = Ret recs).
Proof.
  split.
  - intros Hr. split; [|split].
    + unfold mapStreamSpeechResult. by rewrite Hr.
    + intros e results recvs rx Hin. simpl.
      by rewrite (mapStreamSpeechResults_panics r).
    + by rewrite Hr.
  - intros Hr. unfold mapStreamSpeechResult.
    destruct (speechpb.Alternatives r) as [|alt alts]; [done|].
    simpl. eauto.
Qed.

Lemma stream_mapper_needs_an_alternative_witness :
  mapStreamSpeechResult emptyResult = Panic "index out of range"
  ∧ (∀ e results recvs rx, emptyResult ∈ results →
       listenTr (RecvResp (speechpb.mkResponse e results) :: recvs) rx
       = Panic "index out of range")
  ∧ mapSpeechResults (speechpb.Alternatives emptyResult) = [].
Proof.
  apply (proj1 (stream_mapper_needs_an_alternative emptyResult)).
  reflexivity.
Defined.

(** ** Worked examples *)

(** One second, five minutes and one byte of 16 kHz, 16 bit mono audio, in
    nanoseconds; a byte count whose duration does not fit [int64] makes
    [time.ParseDuration] fail, and the result is [0]. *)
Example computeTimeshiftOffset_values :
  computeTimeshiftOffset 32000 = 1000000000
  ∧ computeTimeshiftOffset 9600000 = 300000000000
  ∧ computeTimeshiftOffset 1 = 31000
  ∧ computeTimeshiftOffset 0 = 0
  ∧ computeTimeshiftOffset (2 ^ 62) = 0.
Proof. repeat split; vm_compute; reflexivity. Qed.

(** With room for two requests in [tx], the worker of the second row
    finishes before the worker of the first one; the rows are still written
    in input order. *)
Example demo_run_skewed :
  ∃ s, rtc (step allLive demoSearch writeOk 2 1) (start demoRows) s
       ∧ map rec (written (sink s))
         = [["0.5"; "elephant"; "elephant-1.jpg"];
            ["1.5"; "ant"; "ant-1.jpg"]].
Proof.
  eexists. split.
  - unfold start, demoRows.
    eapply rtc_l. { apply step_send. left. simpl. lia. }
    eapply rtc_l. { apply step_spawn. vm_compute. lia. }
    eapply rtc_l. { apply step_send. left. simpl. lia. }
    eapply rtc_l. { apply step_spawn. vm_compute. lia. }
    eapply rtc_l.
    { eapply (step_finish _ _ _ _ _ _ _ _ _ _ 1%nat _ _ 1%nat ∅ []).
      - set_solver.
      - apply lookup_insert_eq.
      - vm_compute. reflexivity. }
    eapply rtc_l.
    { eapply (step_finish _ _ _ _ _ _ _ _ _ _ 0%nat _ _ 1%nat ∅ []).
      - set_solver.
      - rewrite !lookup_insert_ne by done. apply lookup_insert_eq.
      - vm_compute. reflexivity. }
    eapply rtc_l. { apply step_recv. done. }
    eapply rtc_l. { eapply step_wait; [set_solver|apply lookup_insert_eq]. }
    eapply rtc_l. { apply step_recv. done. }
    eapply rtc_l.
    { eapply step_wait; [set_solver|].
      rewrite lookup_insert_ne by done. apply lookup_insert_eq. }
    apply rtc_refl.
  - reflexivity.
Qed.

(** A ring of three entries whose first link is dead: every call probes
    the dead link again and returns the second entry; the third is never
    reached. *)
Example ring_one_bad_url :
  let head := λ l : string,
    if String.eqb l "a" then Some (mkResponse 404 "text/html")
    else Some (mkResponse 200 "image/png") in
  ∃ r1 r2,
    imageRing_next head 2 (freshRing [isr "a"; isr "b"; isr "c"]) []
      = Ret (Some (isr "b"), r1, ["a"; "b"])
    ∧ imageRing_next head 2 r1 ["a"; "b"]
      = Ret (Some (isr "b"), r2, ["a"; "b"; "a"; "b"]).
Proof.
  intros head. eexists _, _. split; vm_compute; reflexivity.
Qed.

(** ** Further properties of the ring cache *)

Lemma dead_not_live Head ti : dead Head ti → live Head ti → False.
Proof. intros [Hc Hd] [[_ Hl]|[Hc' _]]; congruence. Qed.

Lemma touch_image Head ti probes : image (touch Head ti probes).1 = image ti.
Proof. unfold touch. by destruct (checked ti). Qed.

(** What a scan that returns has done to the ring: the images and their
    order are untouched, and a position it reports is inside the ring, holds
    an entry marked valid, and is reached from the cursor by steps of
    [% (len - 1)]. *)
Lemma scan_returns Head fuel : ∀ l i probes found l' probes',
  scan Head fuel l i probes = Ret (found, l', probes') →
  map image l' = map image l
  ∧ ∀ idx, found = Some idx →
      (∃ ti, l' !! Z.to_nat idx = Some ti ∧ valid ti = true)
      ∧ 0 ≤ idx < len l
      ∧ (0 ≤ i < len l - 1 → idx < len l - 1).
Proof.
  induction fuel as [|fuel IH]; intros l i probes found l' probes' H; [done|].
  simpl in H. destruct (Z.ltb_spec i (len l)) as [Hlt|Hge].
  2:{ inversion H; subst. split; [done|]. by intros idx [=]. }
  unfold index_slice in H. destruct (Z.leb_spec 0 i) as [Hi|Hi]; [|done].
  destruct (l !! Z.to_nat i) as [ti|] eqn:Hlk; [|done]. simpl in H.
  pose proof (touch_image Head ti probes) as Him.
  destruct (touch Head ti probes) as [ti' p']. simpl in Him.
  assert (Hm : map image (<[Z.to_nat i := ti']> l) = map image l).
  { change (image <$> <[Z.to_nat i := ti']> l = image <$> l).
    rewrite list_fmap_insert, Him. apply list_insert_id.
    by rewrite list_lookup_fmap, Hlk. }
  destruct (valid ti') eqn:Hv.
  - inversion H; subst. split; [done|]. intros idx [= <-].
    split; [|lia]. exists ti'. split; [|done].
    apply list_lookup_insert_eq. by apply lookup_lt_Some in Hlk.
  - unfold go_rem in H. destruct (Z.eqb_spec (len l - 1) 0); [done|].
    simpl in H. apply IH in H as [Him' Hidx]. rewrite len_insert in Hidx.
    split; [by rewrite Him'|]. intros idx Hf.
    destruct (Hidx idx Hf) as (Hti & Hr & Hlast). split; [done|].
    split; [done|]. intros Hc. apply Hlast.
    pose proof (Z.rem_bound_pos (i + 1) (len l - 1)). lia.
Qed.

(** X1. A call of [ringCache.next] for one key leaves the rings of all
    other keys as they were, whether it hits, misses or evicts. *)
Theorem next_leaves_other_keys Head fuel k k' m probes im m' probes' :
  ringCache_next Head fuel k m probes = Ret (im, m', probes') →
  k' ≠ k →
  m' !! k' = m !! k'.
Proof.
  unfold ringCache_next. intros H Hne.
  destruct (m !! k) as [ring|]; [|by inversion H].
  destruct (imageRing_next Head fuel ring probes)
    as [[[[i|] ring'] p1]| |]; simpl in H; inversion H; subst.
  - by rewrite lookup_insert_ne.
  - by rewrite lookup_delete_ne.
Qed.

Lemma next_leaves_other_keys_witness :
  delete "cat" (<["cat" := freshRing []]> (ringCache_set "dog" [] ∅)) !! "dog"
  = <["cat" := freshRing []]> (ringCache_set "dog" [] ∅) !! "dog".
Proof.
  apply (next_leaves_other_keys allLive 0 "cat" "dog"
           (<["cat" := freshRing []]> (ringCache_set "dog" [] ∅)) []
           None _ []).
  - unfold ringCache_next. rewrite lookup_insert_eq. reflexivity.
  - discriminate.
Defined.

(** X2. A hit of [imageRing.next] needs a ring of at least two entries. It
    keeps the images of the ring and their order, returns an image that
    sits in the ring at a position before the last one, marked valid, and,
    from a cursor before the last position, leaves the cursor before the
    last position: the last search result is never served. *)
Theorem hit_is_never_the_last_entry Head fuel ir probes im ir' probes' :
  imageRing_next Head fuel ir probes = Ret (Some im, ir', probes') →
  0 ≤ index ir < Z.max 1 (len (all ir) - 1) →
  2 ≤ len (all ir)
  ∧ map image (all ir') = map image (all ir)
  ∧ 0 ≤ index ir' < len (all ir') - 1
  ∧ ∃ j ti, 0 ≤ j < len (all ir) - 1
            ∧ all ir' !! Z.to_nat j = Some ti
            ∧ image ti = im ∧ valid ti = true.
Proof.
  unfold imageRing_next. intros H Hc.
  destruct (Z.eqb_spec (len (all ir)) 0) as [E|E]; [by inversion H|].
  destruct (scan Head fuel (all ir) (index ir) probes)
    as [[[[idx|] l'] p1]| |] eqn:Hs; simpl in H; try done.
  apply scan_returns in Hs as [Him Hidx].
  destruct (Hidx idx eq_refl) as ((ti & Hti & Hv) & Hr & Hlast).
  assert (Hlen : len l' = len (all ir)).
  { unfold len. by rewrite <- (length_map image l'), Him, length_map. }
  rewrite (index_slice_lookup _ _ ti) in H by (done || lia). simpl in H.
  unfold go_rem in H. rewrite Hlen in H.
  destruct (Z.eqb_spec (len (all ir) - 1) 0) as [E1|E1]; [done|].
  simpl in H. inversion H; subst. simpl.
  assert (2 ≤ len (all ir)) by (unfold len in *; lia).
  split; [done|]. split; [done|]. rewrite Hlen. split.
  - pose proof (Z.rem_bound_pos (idx + 1) (len (all ir) - 1)). lia.
  - exists idx, ti. repeat split; try done; lia.
Qed.

Lemma hit_is_never_the_last_entry_witness :
  2 ≤ len (all (freshRing [isr "a"; isr "b"]))
  ∧ map image [mkTouched (isr "a") false true; mkTouched (isr "b") false false]
    = map image (all (freshRing [isr "a"; isr "b"]))
  ∧ 0 ≤ 0 < len [mkTouched (isr "a") false true;
                 mkTouched (isr "b") false false] - 1
  ∧ ∃ j ti, 0 ≤ j < len (all (freshRing [isr "a"; isr "b"])) - 1
            ∧ [mkTouched (isr "a") false true;
               mkTouched (isr "b") false false] !! Z.to_nat j = Some ti
            ∧ image ti = isr "a" ∧ valid ti = true.
Proof.
  apply (hit_is_never_the_last_entry allLive 1
           (freshRing [isr "a"; isr "b"]) [] (isr "a")
           (mkRing [mkTouched (isr "a") false true;
                    mkTouched (isr "b") false false] 0) ["a"]).
  - vm_compute. reflexivity.
  - vm_compute. split; [discriminate|reflexivity].
Defined.

Lemma scan_probes Head fuel : ∀ l i probes idx l' probes',
  Forall (λ ti, checked ti = false) l →
  scan Head fuel l i probes = Ret (Some idx, l', probes') →
  ∃ ti extra,
    l' !! Z.to_nat idx = Some ti
    ∧ probes' = probes ++ extra ++ [Link (image ti)]
    ∧ discard Head (Link (image ti)) = false.
Proof.
  induction fuel as [|fuel IH]; intros l i probes idx l' probes' Hun H;
    [done|].
  simpl in H. destruct (i <? len l); [|by inversion H].
  unfold index_slice in H. destruct (Z.leb_spec 0 i) as [Hi|Hi]; [|done].
  destruct (l !! Z.to_nat i) as [ti|] eqn:Hlk; [|done]. simpl in H.
  assert (Hc : checked ti = false).
  { rewrite Forall_lookup in Hun. by eapply Hun. }
  unfold touch in H. rewrite Hc in H. simpl in H.
  destruct (discard Head (Link (image ti))) eqn:Hd; simpl in H.
  - unfold go_rem in H. destruct (len l - 1 =? 0); [done|]. simpl in H.
    apply IH in H as (ti' & extra & Hti & -> & Hd').
    + exists ti', (Link (image ti) :: extra). split; [done|].
      split; [|done]. by rewrite <- !app_assoc.
    + apply Forall_insert; [done|]. done.
  - inversion H; subst. eexists _, []. split.
    + apply list_lookup_insert_eq. by apply lookup_lt_Some in Hlk.
    + simpl. by split.
Qed.

(** X3. On a ring whose entries are all unchecked, as [ringCache.set]
    builds them and every call leaves them, the image of a hit was
    HEAD-probed during that very call, it is the last link probed, and the
    probe answered with a status below 400 and a content type containing
    "image". *)
Theorem hit_was_probed_and_accepted Head fuel ir probes im ir' probes' :
  Forall (λ ti, checked ti = false) (all ir) →
  imageRing_next Head fuel ir probes = Ret (Some im, ir', probes') →
  (∃ extra, probes' = probes ++ extra ++ [Link im])
  ∧ (∃ resp, Head (Link im) = Some resp
             ∧ StatusCode resp < 400
             ∧ Contains (ContentType resp) "image" = true)
  ∧ Forall (λ ti, checked ti = false) (all ir').
Proof.
  unfold imageRing_next. intros Hun H.
  destruct (len (all ir) =? 0); [by inversion H|].
  destruct (scan Head fuel (all ir) (index ir) probes)
    as [[[[idx|] l'] p1]| |] eqn:Hs; simpl in H; try done.
  pose proof (scan_keeps_checked _ _ _ _ _ _ _ _ Hs) as Hck.
  pose proof (scan_returns _ _ _ _ _ _ _ _ Hs) as [_ Hidx].
  destruct (Hidx idx eq_refl) as (_ & Hr & _).
  apply scan_probes in Hs as (ti & extra & Hti & -> & Hd); [|done].
  rewrite (index_slice_lookup _ _ ti) in H by (done || lia). simpl in H.
  unfold go_rem in H. destruct (len l' - 1 =? 0); [done|]. simpl in H.
  inversion H; subst. simpl. split; [by exists extra|]. split.
  - unfold discard, discardResp in Hd.
    destruct (Head (Link (image ti))) as [resp|]; [|done].
    exists resp. split; [done|].
    destruct (Z.leb_spec 400 (StatusCode resp)); [done|]. split; [done|].
    by apply negb_false_iff.
  - apply Forall_forall. intros t Ht.
    assert (Hin : checked t ∈ map checked l').
    { change (checked t ∈ checked <$> l'). by apply list_elem_of_fmap_2. }
    rewrite Hck in Hin. change (checked t ∈ checked <$> all ir) in Hin.
    apply list_elem_of_fmap in Hin as (t0 & -> & Ht0).
    rewrite Forall_forall in Hun. by apply Hun.
Qed.

Lemma hit_was_probed_and_accepted_witness :
  (∃ extra, ["a"] = [] ++ extra ++ [Link (isr "a")])
  ∧ (∃ resp, allLive (Link (isr "a")) = Some resp
             ∧ StatusCode resp < 400
             ∧ Contains (ContentType resp) "image" = true)
  ∧ Forall (λ ti, checked ti = false)
      (all (mkRing [mkTouched (isr "a") false true;
                    mkTouched (isr "b") false false] 0)).
Proof.
  apply (hit_was_probed_and_accepted allLive 1
           (freshRing [isr "a"; isr "b"]) [] (isr "a") _ ["a"]).
  - repeat constructor.
  - vm_compute. reflexivity.
Defined.

Lemma scan_finds_first_live Head (d : nat) : ∀ fuel l i probes,
  2 ≤ len l → 0 ≤ i < len l - 1 →
  (∀ j : nat, (j < d)%nat →
     ∃ ti, l !! Z.to_nat ((i + Z.of_nat j) mod (len l - 1)) = Some ti
           ∧ dead Head ti) →
  (∃ ti, l !! Z.to_nat ((i + Z.of_nat d) mod (len l - 1)) = Some ti
         ∧ live Head ti) →
  ∃ l' probes',
    scan Head (S d + fuel) l i probes
    = Ret (Some ((i + Z.of_nat d) mod (len l - 1)), l', probes').
Proof.
  induction d as [|d IH]; intros fuel l i probes Hn Hi Hdead Hlive.
  - rewrite Z.add_0_r, Z.mod_small in * by lia.
    destruct Hlive as (ti & Hlk & Hl). simpl.
    destruct (Z.ltb_spec i (len l)); [|lia].
    rewrite (index_slice_lookup _ _ ti) by (done || lia). simpl.
    destruct (touch_live Head ti probes Hl) as [Hv _].
    destruct (touch Head ti probes) as [ti' p']. simpl in Hv.
    rewrite Hv. eauto.
  - destruct (Hdead 0%nat) as (ti & Hlk & Hd); [lia|].
    rewrite Z.add_0_r, Z.mod_small in Hlk by lia.
    change (S (S d) + fuel)%nat with (S (S d + fuel)).
    cbn [scan]. destruct (Z.ltb_spec i (len l)); [|lia].
    rewrite (index_slice_lookup _ _ ti) by (done || lia). simpl.
    destruct (touch_dead Head ti probes Hd) as (ti' & -> & Hv & Hd').
    rewrite Hv. unfold go_rem.
    destruct (Z.eqb_spec (len l - 1) 0); [lia|]. simpl.
    rewrite Z.rem_mod_nonneg by lia.
    assert (Hshift : ∀ j : nat,
      ((i + 1) mod (len l - 1) + Z.of_nat j) mod (len l - 1)
      = (i + Z.of_nat (S j)) mod (len l - 1)).
    { intros j. rewrite Zplus_mod_idemp_l. f_equal. lia. }
    destruct (IH fuel (<[Z.to_nat i := ti']> l) ((i + 1) mod (len l - 1))
                (probes ++ [Link (image ti)])) as (l' & p' & Hscan).
    + by rewrite len_insert.
    + rewrite len_insert.
      pose proof (Z.mod_pos_bound (i + 1) (len l - 1)). lia.
    + intros j Hj. rewrite len_insert, Hshift.
      destruct (Hdead (S j)) as (t & Ht & Hdt); [lia|].
      destruct (decide (Z.to_nat ((i + Z.of_nat (S j)) mod (len l - 1))
                        = Z.to_nat i)) as [E|E].
      * rewrite E. exists ti'. split; [|done].
        apply list_lookup_insert_eq. by apply lookup_lt_Some in Hlk.
      * exists t. split; [|done]. by rewrite list_lookup_insert_ne.
    + rewrite len_insert, Hshift.
      destruct Hlive as (t & Ht & Hlt).
      exists t. split; [|done]. rewrite list_lookup_insert_ne; [done|].
      intros E. rewrite <- E in Ht.
      assert (t = ti) by congruence. subst t.
      exact (dead_not_live _ _ Hd Hlt).
    + rewrite len_insert, Hshift in Hscan. eauto.
Qed.

Lemma scan_found_entry Head fuel l i probes idx l' probes' ti :
  scan Head fuel l i probes = Ret (Some idx, l', probes') →
  l !! Z.to_nat idx = Some ti →
  ∃ ti', l' !! Z.to_nat idx = Some ti' ∧ image ti' = image ti
         ∧ len l' = len l.
Proof.
  intros Hs Hlk. apply scan_returns in Hs as [Him Hidx].
  destruct (Hidx idx eq_refl) as ((ti' & Hti' & _) & _ & _).
  exists ti'. split; [done|]. split.
  - assert (H1 : map image l' !! Z.to_nat idx = Some (image ti')).
    { change ((image <$> l') !! Z.to_nat idx = Some (image ti')).
      by rewrite list_lookup_fmap, Hti'. }
    rewrite Him in H1.
    change ((image <$> l) !! Z.to_nat idx = Some (image ti')) in H1.
    rewrite list_lookup_fmap, Hlk in H1. simpl in H1. congruence.
  - unfold len. by rewrite <- (length_map image l'), Him, length_map.
Qed.

(** X4. [imageRing.next] serves the first acceptable entry in the order
    of the scan: when the [d] entries met from the cursor on, in steps of
    [% (len - 1)], are rejected by the probe and the next one is valid, the
    call returns within [d + 1] turns of the loop with the image of that
    entry, and parks the cursor one step after it. *)
Theorem next_serves_first_acceptable Head (d : nat) fuel ir probes ti :
  2 ≤ len (all ir) →
  0 ≤ index ir < len (all ir) - 1 →
  (∀ j : nat, (j < d)%nat →
     ∃ t, all ir !! Z.to_nat ((index ir + Z.of_nat j) mod (len (all ir) - 1))
          = Some t ∧ dead Head t) →
  all ir !! Z.to_nat ((index ir + Z.of_nat d) mod (len (all ir) - 1))
  = Some ti →
  live Head ti →
  ∃ l' probes',
    imageRing_next Head (S d + fuel) ir probes
    = Ret (Some (image ti),
           mkRing l'
             (Z.rem ((index ir + Z.of_nat d) mod (len (all ir) - 1) + 1)
                (len (all ir) - 1)),
           probes').
Proof.
  intros Hn Hi Hdead Hlk Hlive. unfold imageRing_next.
  destruct (Z.eqb_spec (len (all ir)) 0); [lia|].
  destruct (scan_finds_first_live Head d fuel (all ir) (index ir) probes)
    as (l' & p' & Hs); [done..|by eauto|].
  rewrite Hs. simpl.
  destruct (scan_found_entry _ _ _ _ _ _ _ _ _ Hs Hlk)
    as (ti' & Hti' & Him & Hlen).
  pose proof (Z.mod_pos_bound (index ir + Z.of_nat d) (len (all ir) - 1)).
  rewrite (index_slice_lookup _ _ ti') by (done || lia). simpl.
  unfold go_rem. rewrite Hlen.
  destruct (Z.eqb_spec (len (all ir) - 1) 0); [lia|]. simpl.
  rewrite Him. eauto.
Qed.

Lemma next_serves_first_acceptable_witness :
  ∃ l' probes',
    imageRing_next
      (λ l, if String.eqb l "a" then Some (mkResponse 404 "text/html")
            else Some (mkResponse 200 "image/png"))
      (2 + 0) (freshRing [isr "a"; isr "b"; isr "c"]) []
    = Ret (Some (isr "b"), mkRing l' (Z.rem ((0 + 1) mod (3 - 1) + 1) (3 - 1)),
           probes').
Proof.
  apply (next_serves_first_acceptable
           (λ l, if String.eqb l "a" then Some (mkResponse 404 "text/html")
                 else Some (mkResponse 200 "image/png"))
           1 0 (freshRing [isr "a"; isr "b"; isr "c"]) []
           (mkTouched (isr "b") false false)).
  - vm_compute. discriminate.
  - vm_compute. split; [discriminate|reflexivity].
  - intros j Hj. assert (j = 0%nat) as -> by lia.
    exists (mkTouched (isr "a") false false). split; [reflexivity|].
    split; reflexivity.
  - reflexivity.
  - left. split; reflexivity.
Defined.

Lemma fresh_ring_next_hit Head (d : nat) fuel results probes r :
  (d + 2 ≤ length results)%nat →
  (∀ j : nat, (j < d)%nat →
     ∃ v, results !! j = Some v ∧ discard Head (Link v) = true) →
  results !! d = Some r →
  discard Head (Link r) = false →
  ∃ ring' probes',
    imageRing_next Head (S d + fuel) (freshRing results) probes
    = Ret (Some r, ring', probes')
    ∧ map image (all ring') = results.
Proof.
  intros Hlen Hdead Hr Hacc.
  set (l := map (λ v, mkTouched v false false) results).
  assert (Hl : len l = Z.of_nat (length results)).
  { unfold len, l. by rewrite length_map. }
  assert (Hpos : ∀ j : nat, (j ≤ d)%nat →
            Z.to_nat ((0 + Z.of_nat j) mod (len l - 1)) = j).
  { intros j Hj. rewrite Z.mod_small; lia. }
  assert (Hat : ∀ (j : nat) v, results !! j = Some v →
            l !! j = Some (mkTouched v false false)).
  { intros j v Hv. unfold l.
    change ((((λ v, mkTouched v false false) <$> results) !! j)
            = Some (mkTouched v false false)).
    by rewrite list_lookup_fmap, Hv. }
  destruct (scan_finds_first_live Head d fuel l 0 probes)
    as (l' & p' & Hs).
  - lia.
  - lia.
  - intros j Hj. rewrite Hpos by lia.
    destruct (Hdead j Hj) as (v & Hv & Hd).
    exists (mkTouched v false false). split; [by apply Hat|by split].
  - rewrite Hpos by lia. exists (mkTouched r false false).
    split; [by apply Hat|]. left. by split.
  - assert (Hlk : l !! Z.to_nat ((0 + Z.of_nat d) mod (len l - 1))
                  = Some (mkTouched r false false)).
    { rewrite Hpos by lia. by apply Hat. }
    destruct (scan_found_entry _ _ _ _ _ _ _ _ _ Hs Hlk)
      as (ti' & Hti' & Him & Hlen').
    pose proof (scan_returns _ _ _ _ _ _ _ _ Hs) as [Himg _].
    pose proof (Z.mod_pos_bound (0 + Z.of_nat d) (len l - 1)).
    eexists _, _. split.
    + unfold imageRing_next, freshRing. cbn [all index]. fold l.
      destruct (Z.eqb_spec (len l) 0); [lia|].
      rewrite Hs. cbn [mbind outcome_bind].
      rewrite (index_slice_lookup _ _ ti') by (done || lia). simpl.
      unfold go_rem. rewrite Hlen'.
      destruct (Z.eqb_spec (len l - 1) 0); [lia|]. simpl.
      rewrite Him. reflexivity.
    + simpl. rewrite Himg. unfold l. rewrite map_map. simpl.
      apply map_id.
Qed.

(** X5. [set] followed by [next]: if the first [d] search results are
    rejected by the probe, result [d] is accepted and it is not the last
    result, then [next] is a hit that returns result [d], and the ring kept
    under the key still holds the results in their order. *)
Theorem set_then_next_hits Head (d : nat) fuel k results m probes r :
  (d + 2 ≤ length results)%nat →
  (∀ j : nat, (j < d)%nat →
     ∃ v, results !! j = Some v ∧ discard Head (Link v) = true) →
  results !! d = Some r →
  discard Head (Link r) = false →
  ∃ ring' probes',
    ringCache_next Head (S d + fuel) k (ringCache_set k results m) probes
    = Ret (Some r, <[k := ring']> (ringCache_set k results m), probes')
    ∧ map image (all ring') = results.
Proof.
  intros Hlen Hdead Hr Hacc.
  destruct (fresh_ring_next_hit Head d fuel results probes r)
    as (ring' & p' & Hn & Him); [done..|].
  exists ring', p'. split; [|done].
  eapply ringCache_next_hit; [apply lookup_insert_eq|exact Hn].
Qed.

Lemma set_then_next_hits_witness :
  ∃ ring' probes',
    ringCache_next allLive (1 + 0) "cat"
      (ringCache_set "cat" [isr "a"; isr "b"] ∅) []
    = Ret (Some (isr "a"),
           <["cat" := ring']> (ringCache_set "cat" [isr "a"; isr "b"] ∅),
           probes')
    ∧ map image (all ring') = [isr "a"; isr "b"].
Proof.
  apply (set_then_next_hits allLive 0 0 "cat" [isr "a"; isr "b"] ∅ []
           (isr "a")).
  - simpl. lia.
  - intros j Hj. lia.
  - reflexivity.
  - reflexivity.
Defined.

(** ** Further properties of the annotation pipeline *)

(** X6. The column selector of [Run] at its bounds: a column at or beyond
    the end of the record gives the request the column error and touches
    neither the record, the cache nor the network; a negative column is
    not caught by the guard and the indexing panics. *)
Theorem Run_column_bounds Head SearchImages fuel r m probes :
  (len (rec r) ≤ c r →
     Run Head SearchImages fuel r m probes
     = Ret (mkRequest (pos r) (c r) (rec r)
              (Some (ErrColumn (c r) (len (rec r)))), m, probes))
  ∧ (c r < 0 →
     Run Head SearchImages fuel r m probes = Panic "index out of range").
Proof.
  unfold Run. split; intros Hc.
  - destruct (Z.leb_spec (len (rec r)) (c r)); [done|lia].
  - destruct (Z.leb_spec (len (rec r)) (c r)); [unfold len in *; lia|].
    unfold index_slice. destruct (Z.leb_spec 0 (c r)); [lia|done].
Qed.

Lemma Run_column_bounds_witness :
  Run allLive demoSearch 1 (mkRequest 0 3 ["0.5"; "ant"] None) ∅ []
  = Ret (mkRequest 0 3 ["0.5"; "ant"] (Some (ErrColumn 3 2)), ∅, [])
  ∧ Run allLive demoSearch 1 (mkRequest 0 (-1) ["0.5"; "ant"] None) ∅ []
    = Panic "index out of range".
Proof.
  split.
  - apply (proj1 (Run_column_bounds allLive demoSearch 1
                    (mkRequest 0 3 ["0.5"; "ant"] None) ∅ [])).
    vm_compute. discriminate.
  - apply (proj2 (Run_column_bounds allLive demoSearch 1
                    (mkRequest 0 (-1) ["0.5"; "ant"] None) ∅ [])).
    reflexivity.
Defined.

Lemma Run_cache_hit_aux Head SearchImages fuel r m probes k im m1 p1 :
  index_slice (rec r) (c r) = Ret k →
  ringCache_next Head fuel k m probes = Ret (Some im, m1, p1) →
  Run Head SearchImages fuel r m probes
  = Ret (mkRequest (pos r) (c r) (rec r ++ [Link im]) (err r), m1, p1).
Proof.
  intros Hk Hhit. unfold Run.
  assert (Hcol : (len (rec r) <=? c r) = false).
  { unfold index_slice in Hk. destruct (0 <=? c r) eqn:E; [|done].
    destruct (rec r !! Z.to_nat (c r)) eqn:El; [|done].
    apply lookup_lt_Some in El. apply Z.leb_le in E.
    apply Z.leb_gt. unfold len. lia. }
  by rewrite Hcol, Hk; simpl; rewrite Hhit.
Qed.

(** X8. A miss that the search answers fills the cache: for a word with
    no ring, when the search returns at least two results of which the
    first is accepted by the probe, [Run] appends the link of the first
    result without error and leaves under the word a ring holding all the
    results in their order. *)
Theorem Run_miss_fills_cache Head SearchImages fuel r m probes k results r0 :
  index_slice (rec r) (c r) = Ret k →
  m !! k = None →
  SearchImages k = Items results →
  (2 ≤ length results)%nat →
  results !! 0%nat = Some r0 →
  discard Head (Link r0) = false →
  ∃ ring' m' probes',
    Run Head SearchImages (S fuel) r m probes
    = Ret (mkRequest (pos r) (c r) (rec r ++ [Link r0]) (err r), m', probes')
    ∧ m' !! k = Some ring'
    ∧ map image (all ring') = results.
Proof.
  intros Hk Hm Hs Hlen Hr0 Hacc. unfold Run.
  assert (Hcol : (len (rec r) <=? c r) = false).
  { unfold index_slice in Hk. destruct (0 <=? c r) eqn:E; [|done].
    destruct (rec r !! Z.to_nat (c r)) eqn:El; [|done].
    apply lookup_lt_Some in El. apply Z.leb_le in E.
    apply Z.leb_gt. unfold len. lia. }
  rewrite Hcol, Hk. cbn [mbind outcome_bind].
  rewrite (ringCache_next_absent _ _ _ _ _ Hm). cbn [mbind outcome_bind].
  rewrite Hs.
  destruct (Z.eqb_spec (len results) 0) as [E|_]; [unfold len in E; lia|].
  destruct (fresh_ring_next_hit Head 0 fuel results probes r0)
    as (ring' & p' & Hn & Him); [simpl; lia|intros; lia|done..|].
  assert (Hhit : ringCache_next Head (S fuel) k (ringCache_set k results m)
                   probes
                 = Ret (Some r0, <[k := ring']> (ringCache_set k results m),
                        p')).
  { eapply ringCache_next_hit; [apply lookup_insert_eq|exact Hn]. }
  rewrite Hhit. cbn [mbind outcome_bind].
  eexists _, _, _. split; [reflexivity|].
  split; [apply lookup_insert_eq|done].
Qed.

Lemma Run_miss_fills_cache_witness :
  ∃ ring' m' probes',
    Run allLive demoSearch 1 (mkRequest 0 1 ["0.5"; "ant"] None) ∅ []
    = Ret (mkRequest 0 1 (["0.5"; "ant"] ++ [Link (isr "ant-1.jpg")]) None,
           m', probes')
    ∧ m' !! "ant" = Some ring'
    ∧ map image (all ring') = [isr "ant-1.jpg"; isr "ant-2.jpg"].
Proof.
  apply (Run_miss_fills_cache allLive demoSearch 0
           (mkRequest 0 1 ["0.5"; "ant"] None) ∅ [] "ant"
           [isr "ant-1.jpg"; isr "ant-2.jpg"] (isr "ant-1.jpg")).
  - reflexivity.
  - apply lookup_empty.
  - reflexivity.
  - simpl. lia.
  - reflexivity.
  - reflexivity.
Defined.

(** X7. A cache hit is served without the search service: when
    [ringCache.next] hits for the word of the record, [Run] appends the
    link of the cached image and keeps the error slot as it was, whatever
    [SearchImages] would have answered. *)
Theorem Run_cache_hit Head SearchImages fuel r m probes k im m1 p1 :
  index_slice (rec r) (c r) = Ret k →
  ringCache_next Head fuel k m probes = Ret (Some im, m1, p1) →
  Run Head SearchImages fuel r m probes
  = Ret (mkRequest (pos r) (c r) (rec r ++ [Link im]) (err r), m1, p1).
Proof. apply Run_cache_hit_aux. Qed.

Lemma Run_cache_hit_witness :
  Run allLive noResults 1 (mkRequest 2 1 ["2.5"; "ant"] None)
    (ringCache_set "ant" [isr "ant-1.jpg"; isr "ant-2.jpg"] ∅) []
  = Ret (mkRequest 2 1 (["2.5"; "ant"] ++ [Link (isr "ant-1.jpg")]) None,
         <["ant" := mkRing [mkTouched (isr "ant-1.jpg") false true;
                            mkTouched (isr "ant-2.jpg") false false] 0]>
           (ringCache_set "ant" [isr "ant-1.jpg"; isr "ant-2.jpg"] ∅),
         ["ant-1.jpg"]).
Proof.
  apply (Run_cache_hit allLive noResults 1
           (mkRequest 2 1 ["2.5"; "ant"] None) _ [] "ant" (isr "ant-1.jpg")).
  - reflexivity.
  - eapply ringCache_next_hit; [apply lookup_insert_eq|].
    vm_compute. reflexivity.
Defined.

(** X9. While the output accepts every write, [enqueueImageRequest]
    writes exactly the requests that carry no error, in the order of the
    channel, logs the errors of the others in that order, and reports no
    critical error. *)
Theorem enqueue_writes_the_successes Write rx w :
  (∀ ws row, Write ws row = None) →
  critical w = None →
  enqueueImageRequest Write rx w
  = mkWriter (written w ++ filter (λ r, err r = None) rx)
      (logged w ++ omap err rx) None.
Proof.
  intros Hok. revert w. induction rx as [|r rx IH]; intros w Hw; simpl.
  - rewrite !app_nil_r. destruct w; simpl in *. by subst.
  - unfold consume. destruct (err r) as [e|] eqn:He; simpl.
    + rewrite Hw. rewrite IH by done. simpl.
      rewrite filter_cons_False by (by rewrite He).
      by rewrite <- app_assoc.
    + rewrite Hok. simpl. rewrite Hw. rewrite IH by done. simpl.
      rewrite filter_cons_True by done. by rewrite <- app_assoc.
Qed.

Lemma enqueue_writes_the_successes_witness :
  enqueueImageRequest writeOk
    [mkRequest 0 1 ["0.5"; "zyx"; ""] (Some ErrNoResults);
     mkRequest 1 1 ["1.5"; "ant"; "ant-1.jpg"] None]
    (mkWriter [] [] None)
  = mkWriter
      ([] ++ filter (λ r, err r = None)
               [mkRequest 0 1 ["0.5"; "zyx"; ""] (Some ErrNoResults);
                mkRequest 1 1 ["1.5"; "ant"; "ant-1.jpg"] None])
      ([] ++ omap err
               [mkRequest 0 1 ["0.5"; "zyx"; ""] (Some ErrNoResults);
                mkRequest 1 1 ["1.5"; "ant"; "ant-1.jpg"] None])
      None.
Proof.
  apply (enqueue_writes_the_successes writeOk).
  - reflexivity.
  - reflexivity.
Defined.

Lemma enqueue_app Write pre : ∀ post w,
  critical (enqueueImageRequest Write pre w) = None →
  enqueueImageRequest Write (pre ++ post) w
  = enqueueImageRequest Write post (enqueueImageRequest Write pre w).
Proof.
  induction pre as [|r pre IH]; intros post w H; simpl in *; [done|].
  destruct (critical (consume Write w r)) eqn:E.
  - congruence.
  - by apply IH.
Qed.

(** X10. A failed write is final: when [w.Write] fails on a request that
    carries no error, [enqueueImageRequest] hands the failure to [errc] and
    returns. What was written and logged for the requests before it
    stands, the request itself is not written, and none of the requests
    behind it is written or logged. *)
Theorem enqueue_stops_at_failed_write Write pre r rest w e :
  critical (enqueueImageRequest Write pre w) = None →
  err r = None →
  Write (written (enqueueImageRequest Write pre w)) (rec r) = Some e →
  enqueueImageRequest Write (pre ++ r :: rest) w
  = mkWriter (written (enqueueImageRequest Write pre w))
      (logged (enqueueImageRequest Write pre w)) (Some e).
Proof.
  intros Hpre He Hw. rewrite enqueue_app by done.
  simpl. unfold consume. by rewrite He, Hw.
Qed.

Lemma enqueue_stops_at_failed_write_witness :
  enqueueImageRequest failSecondWrite
    ([mkRequest 0 1 ["0.5"; "cat"; "cat-1.jpg"] None]
     ++ mkRequest 1 1 ["1.5"; "ant"; "ant-1.jpg"] None
        :: [mkRequest 2 1 ["2.5"; "bee"; "bee-1.jpg"] None])
    (mkWriter [] [] None)
  = mkWriter [mkRequest 0 1 ["0.5"; "cat"; "cat-1.jpg"] None] []
      (Some "broken pipe").
Proof.
  refine (eq_trans
    (enqueue_stops_at_failed_write failSecondWrite
       [mkRequest 0 1 ["0.5"; "cat"; "cat-1.jpg"] None]
       (mkRequest 1 1 ["1.5"; "ant"; "ant-1.jpg"] None)
       [mkRequest 2 1 ["2.5"; "bee"; "bee-1.jpg"] None]
       (mkWriter [] [] None) "broken pipe" _ _ _) _); reflexivity.
Defined.

#[local] Set Warnings "-clear-no-such-hyp".

(** With an unbuffered [tx] the invariant of serial lookups holds in
    every reachable state. *)
Lemma serial_step Head SearchImages Write col s s' :
  step Head SearchImages Write 0 col s s' → serial_inv s → serial_inv s'.
Proof.
  intros Hstep [Hone Hsub Hdisj Hsp].
  destruct Hstep; unfold pending in *; simpl in *.
  - (* send *)
    match goal with H : _ ∨ _ |- _ => destruct H as [?|(-> & -> & _)] end;
      [lia|].
    simpl in *.
    assert (Hr : run = ∅).
    { apply set_eq. intros x. split; [|set_solver].
      intros Hx. specialize (Hsub x). set_solver. }
    assert (Hf : fin = ∅).
    { apply set_eq. intros x. split; [|set_solver].
      intros Hx. specialize (Hsub x). set_solver. }
    subst. split; simpl; unfold pending; simpl.
    + lia.
    + set_solver.
    + set_solver.
    + intros p [= <-]. done.
  - (* spawn *)
    destruct (Hsp p eq_refl) as (Hp & -> & ->).
    split; simpl; unfold pending; simpl.
    + done.
    + intros x Hx. rewrite Hp. set_solver.
    + set_solver.
    + done.
  - (* finish *)
    split; simpl; unfold pending; simpl.
    + done.
    + intros x Hx. apply Hsub. set_solver.
    + set_solver.
    + intros p' Hp'. destruct (Hsp p' Hp') as (_ & Hr & _). set_solver.
  - (* recv *)
    split; simpl; unfold pending; simpl; try done.
  - (* wait *)
    simpl in Hone. destruct q as [|? ?]; [|simpl in Hone; lia].
    simpl in *.
    split; simpl; unfold pending; simpl.
    + lia.
    + intros x Hx. specialize (Hsub x). set_solver.
    + set_solver.
    + intros p' Hp'. destruct (Hsp p' Hp') as (_ & _ & Hf). set_solver.
Qed.

(** X11. With the unbuffered [tx] of the source the lookups never
    overlap: in every reachable state at most one request has been handed
    to the consumer and not yet dealt with, and at most one worker is
    inside [Run] or waiting on [r.done]; so no more than one of the [maxcc]
    slots is ever needed for a lookup. *)
Theorem lookups_are_serial Head SearchImages Write col rows s :
  rtc (step Head SearchImages Write 0 col) (start rows) s →
  (length (pending s) ≤ 1)%nat
  ∧ (size (running s ∪ finished s) ≤ 1)%nat.
Proof.
  intros Hreach.
  assert (Hinv : serial_inv s).
  { revert s Hreach. apply rtc_ind_r.
    - split; simpl; unfold pending; simpl; try done; try lia; set_solver.
    - intros y z _ Hstep Hy. by eapply serial_step. }
  destruct Hinv as [Hone Hsub _ _]. split; [done|].
  destruct (pending s) as [|a [|b l]] eqn:E; simpl in Hone; [| |lia].
  - assert (running s ∪ finished s = ∅) as ->.
    { apply set_eq. intros x. split; [|set_solver].
      intros Hx. apply Hsub in Hx. by inversion Hx. }
    by rewrite size_empty.
  - transitivity (size ({[a]} : gset nat)); [|by rewrite size_singleton].
    apply subseteq_size. intros x Hx. apply Hsub in Hx. set_solver.
Qed.

Lemma lookups_are_serial_witness :
  ∃ s, (length (pending s) ≤ 1)%nat
       ∧ (size (running s ∪ finished s) ≤ 1)%nat
       ∧ input s = [].
Proof.
  destruct demo_run as (s & Hrun & Hin & _).
  exists s.
  destruct (lookups_are_serial allLive demoSearch writeOk 1 demoRows s Hrun)
    as [H1 H2].
  split; [exact H1|]. split; [exact H2|exact Hin].
Defined.

(** ** Further properties of the streaming engine *)

Lemma wrap64_add_l a b : wrap64 (wrap64 a + b) = wrap64 (a + b).
Proof.
  unfold wrap64. f_equal.
  replace ((a + 2 ^ 63) mod 2 ^ 64 - 2 ^ 63 + b + 2 ^ 63)
    with ((a + 2 ^ 63) mod 2 ^ 64 + b) by lia.
  rewrite Zplus_mod_idemp_l. f_equal. lia.
Qed.

Lemma wrap64_bounds z : - 2 ^ 63 ≤ wrap64 z ≤ MaxInt64.
Proof.
  unfold wrap64, MaxInt64.
  pose proof (Z.mod_pos_bound (z + 2 ^ 63) (2 ^ 64)). lia.
Qed.

Section OuterLoopFacts.

Variable ShiftTime : Z → sgenc.StrTrRec → sgenc.StrTrRec.

Lemma selectLoop_rx evs : ∀ sess s,
  rx (selectLoop ShiftTime evs sess s).2
  = rx s ++ map (ShiftTime (timeshiftOffset s)) (forwarded evs).
Proof.
  induction evs as [|ev evs IH]; intros sess s; simpl.
  - by rewrite app_nil_r.
  - destruct ev as [[e|] tail ctxErr|[rr|e]|[p|] [e|]]; simpl;
      rewrite ?app_nil_r; try done.
    + by rewrite drain_shifts.
    + rewrite IH. simpl. by rewrite <- app_assoc.
Qed.

Lemma selectLoop_bytes evs : ∀ sess s,
  wrap64 (bytesSent sess) = bytesSent sess →
  bytesSent (selectLoop ShiftTime evs sess s).1.2
  = wrap64 (bytesSent sess + sentBytes evs).
Proof.
  induction evs as [|ev evs IH]; intros sess s Hb; simpl.
  - by rewrite Z.add_0_r.
  - destruct ev as [[e|] tail ctxErr|[rr|e]|[p|] [e|]]; simpl;
      rewrite ?Z.add_0_r; try done.
    + by apply IH.
    + set (b := wrap64 (bytesSent sess + len p)).
      assert (Hw : wrap64 b = b).
      { apply wrap64_in_range, wrap64_bounds. }
      transitivity (wrap64 (b + sentBytes evs)).
      * destruct (sessionTimeout s <=? computeTimeshiftOffset b);
          by rewrite IH.
      * unfold b. rewrite wrap64_add_l. f_equal. lia.
Qed.

(** What [sessLoop] leaves behind for a session that was opened. *)
Lemma sessLoop_opened evs s :
  ∃ r sess s',
    sessLoop ShiftTime None evs s = (r, sess, s')
    ∧ rx s' = rx s ++ map (ShiftTime (timeshiftOffset s)) (forwarded evs)
    ∧ bytesSent sess = wrap64 (sentBytes evs)
    ∧ timeshiftOffset s'
      = match r with
        | Returned _ =>
            wrap64 (timeshiftOffset s
                    + computeTimeshiftOffset (wrap64 (sentBytes evs)))
        | Blocked => timeshiftOffset s
        end.
Proof.
  unfold sessLoop.
  pose proof (selectLoop_rx evs (mkSess 0 false) s) as Hrx.
  pose proof (selectLoop_bytes evs (mkSess 0 false) s eq_refl) as Hb.
  destruct (selectLoop ShiftTime evs (mkSess 0 false) s)
    as [[r sess] s'] eqn:E.
  apply selectLoop_keeps_offset in E as [Ho _]. simpl in *.
  destruct r as [e|]; eexists _, _, _; (split; [reflexivity|]); simpl;
    rewrite ?Hb, ?Ho; by repeat split.
Qed.

End OuterLoopFacts.

(** X12. Every record a session forwards to [rx], while it is active or
    in the drain that follows a successful [CloseSend], goes out in the
    order it was received and shifted by the offset the stream had when the
    session was opened; the session counts exactly the bytes of the buffers
    the remote accepted, modulo [2^64]. *)
Theorem session_forwards_in_order ShiftTime evs s :
  rx (sessLoop ShiftTime None evs s).2
  = rx s ++ map (ShiftTime (timeshiftOffset s)) (forwarded evs)
  ∧ bytesSent (sessLoop ShiftTime None evs s).1.2 = wrap64 (sentBytes evs).
Proof.
  destruct (sessLoop_opened ShiftTime evs s)
    as (r & sess & s' & -> & Hrx & Hb & _). done.
Qed.

(** X13. The two fatal ways out of [sessLoop]. When the session cannot be
    opened the stream is left as it was. When [CloseSend] fails at the
    deadline, the records the remote would still deliver are not forwarded,
    yet the deferred update moves the offset by the bytes sent. *)
Theorem fatal_exits_of_sessLoop ShiftTime pre e tail ctxErr s sess1 s1 evs :
  selectLoop ShiftTime pre (mkSess 0 false) s = (Blocked, sess1, s1) →
  sessLoop ShiftTime None (pre ++ [Deadline (Some e) tail ctxErr]) s
  = (Returned (Some (Fatal e)), sess1,
     mkStream
       (wrap64 (timeshiftOffset s + computeTimeshiftOffset (bytesSent sess1)))
       (sessionTimeout s) (rx s1))
  ∧ sessLoop ShiftTime (Some e) evs s
    = (Returned (Some (Fatal e)), mkSess 0 false, s).
Proof.
  intros Hpre. split; [|done]. unfold sessLoop.
  rewrite (selectLoop_app _ _ _ _ _ _ _ Hpre). simpl.
  apply selectLoop_keeps_offset in Hpre as [Ho Ht].
  unfold deferred. by rewrite Ho, Ht.
Qed.

Lemma fatal_exits_of_sessLoop_witness :
  sessLoop shiftBoth None
    ([Tx (Some buf32) None]
     ++ [Deadline (Some "EOF") [word 4990000000 4995000000 "fine"] None])
    demoStream
  = (Returned (Some (Fatal "EOF")), mkSess 32 false,
     mkStream (wrap64 (300000000000 + computeTimeshiftOffset 32))
       300000000000 [])
  ∧ sessLoop shiftBoth (Some "EOF") [] demoStream
    = (Returned (Some (Fatal "EOF")), mkSess 0 false, demoStream).
Proof.
  apply (fatal_exits_of_sessLoop shiftBoth [Tx (Some buf32) None] "EOF"
           [word 4990000000 4995000000 "fine"] None demoStream
           (mkSess 32 false) demoStream []).
  vm_compute. reflexivity.
Defined.

Lemma openSessionLoop_cons ShiftTime ss rest s e0 :
  openSessionLoop ShiftTime (ss :: rest) s e0
  = match sessLoop ShiftTime (opened ss) (events ss) s with
    | (Blocked, _, s') => mkStreamEnd false e0 s'
    | (Returned None, _, s') => openSessionLoop ShiftTime rest s' e0
    | (Returned (Some e), _, s') =>
        if is_fatal e || canceledAfter ss
        then mkStreamEnd true (Some e) s'
        else openSessionLoop ShiftTime rest s' (Some e)
    end.
Proof. reflexivity. Qed.

Lemma openSessionLoop_closed ShiftTime sessions : ∀ s e0,
  closed (openSessionLoop ShiftTime sessions s e0) = true →
  ∃ e, lastErr (openSessionLoop ShiftTime sessions s e0) = Some e.
Proof.
  induction sessions as [|ss rest IH]; intros s e0 H; simpl in *; [done|].
  destruct (sessLoop ShiftTime (opened ss) (events ss) s)
    as [[[[e|]|] sess] s']; simpl in *; try done.
  - destruct (is_fatal e || canceledAfter ss); simpl in *; [eauto|].
    by apply IH.
  - by apply IH.
Qed.

(** X14. [Rx] is closed only with an error recorded: whenever
    [openSessionLoop] has closed the channel, [Err] is not nil. The [sgtr]
    command in streaming mode therefore has no successful end: once the
    stream is over, or as soon as a record cannot be written, it calls
    [os.Exit(-1)]. *)
Theorem stream_never_ends_cleanly ShiftTime Write sessions s e0 :
  (closed (openSessionLoop ShiftTime sessions s e0) = true →
   ∃ e, lastErr (openSessionLoop ShiftTime sessions s e0) = Some e)
  ∧ transcribeStream Write (openSessionLoop ShiftTime sessions s e0) ≠ Return
  ∧ (closed (openSessionLoop ShiftTime sessions s e0) = true →
     transcribeStream Write (openSessionLoop ShiftTime sessions s e0)
     = Exit (-1)).
Proof.
  pose proof (openSessionLoop_closed ShiftTime sessions s e0) as Hc.
  split; [done|]. unfold transcribeStream.
  destruct (writeAll Write _); [|by split].
  destruct (closed _) eqn:E; [|by split].
  destruct (Hc eq_refl) as [e ->]. by split.
Qed.

Lemma stream_never_ends_cleanly_witness :
  transcribeStream (λ _, None)
    (openSessionLoop shiftBoth
       [mkSession None [Deadline None [] (Some "context canceled")] true]
       demoStream None)
  = Exit (-1).
Proof.
  apply (proj2 (proj2 (stream_never_ends_cleanly shiftBoth (λ _, None)
     [mkSession None [Deadline None [] (Some "context canceled")] true]
     demoStream None))).
  reflexivity.
Defined.

(** X15. Rotation keeps one time line: when a session returns and the
    loop goes on (no error, or an error that is neither fatal nor met with
    a canceled context), the records of the following session are
    forwarded after those of the first one and shifted by the offset of
    the first session plus the duration of the bytes it sent. *)
Theorem rotation_shifts_next_session
    ShiftTime evs1 evs2 c1 c2 s e0 r1 sess1 s1 :
  sessLoop ShiftTime None evs1 s = (Returned r1, sess1, s1) →
  (∀ e, r1 = Some e → is_fatal e = false ∧ c1 = false) →
  rx (final (openSessionLoop ShiftTime
               [mkSession None evs1 c1; mkSession None evs2 c2] s e0))
  = rx s
    ++ map (ShiftTime (timeshiftOffset s)) (forwarded evs1)
    ++ map (ShiftTime
              (wrap64 (timeshiftOffset s
                       + computeTimeshiftOffset (wrap64 (sentBytes evs1)))))
         (forwarded evs2).
Proof.
  intros H1 Hgo.
  destruct (sessLoop_opened ShiftTime evs1 s)
    as (r & sess & s' & E1 & Hrx1 & _ & Ho1).
  rewrite H1 in E1. inversion E1; subst r sess s'. clear E1.
  destruct (sessLoop_opened ShiftTime evs2 s1)
    as (r2 & sess2 & s2 & E2 & Hrx2 & _ & _).
  assert (Hsecond : ∀ e,
    rx (final (openSessionLoop ShiftTime [mkSession None evs2 c2] s1 e))
    = rx s2).
  { intros e. rewrite openSessionLoop_cons.
    cbn [opened events canceledAfter]. rewrite E2. destruct r2 as [[e2|]|]; try done.
    by destruct (is_fatal e2 || c2). }
  rewrite openSessionLoop_cons. cbn [opened events canceledAfter].
  rewrite H1. destruct r1 as [e|].
  - destruct (Hgo e eq_refl) as [-> ->]. cbn [orb].
    rewrite Hsecond, Hrx2, Hrx1, Ho1. by rewrite <- app_assoc.
  - rewrite Hsecond, Hrx2, Hrx1, Ho1. by rewrite <- app_assoc.
Qed.

Lemma rotation_shifts_next_session_witness :
  rx (final (openSessionLoop shiftBoth
               [mkSession None
                  [Tx (Some buf32) None;
                   SessRx (inl (word 500000 900000 "uno"));
                   Deadline None [] None] false;
                mkSession None [SessRx (inl (word 500000 900000 "due"))]
                  false]
               (mkStream 0 300000000000 []) None))
  = rx (mkStream 0 300000000000 [])
    ++ map (shiftBoth 0)
         (forwarded [Tx (Some buf32) None;
                     SessRx (inl (word 500000 900000 "uno"));
                     Deadline None [] None])
    ++ map (shiftBoth
              (wrap64 (0 + computeTimeshiftOffset
                             (wrap64 (sentBytes
                                [Tx (Some buf32) None;
                                 SessRx (inl (word 500000 900000 "uno"));
                                 Deadline None [] None])))))
         (forwarded [SessRx (inl (word 500000 900000 "due"))]).
Proof.
  apply (rotation_shifts_next_session shiftBoth _ _ false false
           (mkStream 0 300000000000 []) None None (mkSess 32 false)
           (mkStream 1000000 300000000000
              [shiftBoth 0 (word 500000 900000 "uno")])).
  - vm_compute. reflexivity.
  - intros e He. discriminate.
Defined.

(** ** Further properties of the speech mappers *)

(** X16. The batch mapper looks at the first alternative only, drops the
    words whose text is empty and keeps the others in order, so no
    transcript record has an empty text. *)
Theorem batch_mapper_drops_empty_words alt rest :
  mapSpeechResults (alt :: rest) = mapSpeechResults [alt]
  ∧ map sgenc.TextRaw (mapSpeechResults (alt :: rest))
    = filter (λ w, w ≠ "") (map speechpb.Word (speechpb.Words alt))
  ∧ Forall (λ r, sgenc.TextRaw r ≠ "") (mapSpeechResults (alt :: rest)).
Proof.
  split; [done|]. unfold mapSpeechResults.
  induction (speechpb.Words alt) as [|w ws [IH1 IH2]]; simpl; [done|].
  destruct (String.eqb_spec (speechpb.Word w) "") as [E|E]; simpl.
  - rewrite filter_cons_False by (intros H; by apply H). done.
  - rewrite filter_cons_True by done. split.
    + by rewrite IH1.
    + by constructor.
Qed.

(** X17. On results that all carry an alternative, the streaming mapper
    returns one record per word of each first alternative, in order, empty
    words included, after the records it was given; each record carries
    the [IsFinal] flag of its result. *)
Theorem stream_mapper_keeps_every_word results : ∀ acc,
  Forall (λ r, speechpb.Alternatives r ≠ []) results →
  ∃ recs,
    mapStreamSpeechResults results acc = Ret (acc ++ recs)
    ∧ map (λ v, sgenc.TextRaw (sgenc.base v)) recs
      = concat (map (λ r, map speechpb.Word (firstWords r)) results)
    ∧ map sgenc.IsFinal recs
      = concat (map (λ r, map (λ _, speechpb.IsFinal r) (firstWords r))
                  results).
Proof.
  induction results as [|r results IH]; intros acc Hall; simpl.
  - exists []. by rewrite app_nil_r.
  - apply Forall_cons in Hall as [Hr Hall].
    unfold mapStreamSpeechResult, firstWords, index_slice.
    destruct (speechpb.Alternatives r) as [|alt alts]; [done|]. simpl.
    set (here := map _ (speechpb.Words alt)).
    destruct (IH (acc ++ here) Hall) as (recs & -> & Ht & Hf).
    exists (here ++ recs). split; [by rewrite app_assoc|].
    rewrite !map_app, Ht, Hf. unfold here. rewrite !map_map. done.
Qed.

Lemma stream_mapper_keeps_every_word_witness :
  ∃ recs,
    mapStreamSpeechResults
      [speechpb.mkResult
         [speechpb.mkAlternative "ciao" (mkFloat 0 0)
            [speechpb.mkWordInfo (speechpb.mkDuration 0 0)
               (speechpb.mkDuration 0 500000000) "ciao";
             speechpb.mkWordInfo (speechpb.mkDuration 0 500000000)
               (speechpb.mkDuration 1 0) ""]] false] []
    = Ret ([] ++ recs)
    ∧ map (λ v, sgenc.TextRaw (sgenc.base v)) recs
      = concat (map (λ r, map speechpb.Word (firstWords r))
                  [speechpb.mkResult
                     [speechpb.mkAlternative "ciao" (mkFloat 0 0)
                        [speechpb.mkWordInfo (speechpb.mkDuration 0 0)
                           (speechpb.mkDuration 0 500000000) "ciao";
                         speechpb.mkWordInfo (speechpb.mkDuration 0 500000000)
                           (speechpb.mkDuration 1 0) ""]] false])
    ∧ map sgenc.IsFinal recs
      = concat (map (λ r, map (λ _, speechpb.IsFinal r) (firstWords r))
                  [speechpb.mkResult
                     [speechpb.mkAlternative "ciao" (mkFloat 0 0)
                        [speechpb.mkWordInfo (speechpb.mkDuration 0 0)
                           (speechpb.mkDuration 0 500000000) "ciao";
                         speechpb.mkWordInfo (speechpb.mkDuration 0 500000000)
                           (speechpb.mkDuration 1 0) ""]] false]).
Proof.
  apply (stream_mapper_keeps_every_word _ []).
  repeat constructor. discriminate.
Defined.

Lemma listenTr_grows recvs : ∀ rx rx1 e,
  listenTr recvs rx = Ret (rx1, e) → rx `prefix_of` rx1.
Proof.
  induction recvs as [|[e0|resp] recvs IH]; intros rx rx1 e H; simpl in H.
  - by inversion H.
  - by inversion H.
  - destruct (mapStreamSpeechResults (speechpb.Results resp) [])
      as [results| |]; [|done..]. simpl in H.
    apply IH in H. etrans; [|exact H]. by apply prefix_app_r.
Qed.

(** X18. The listener ends at the first failed [Recv]: what it has put
    on the session channel up to then stands, [sess.err] is that error,
    and nothing the remote would answer afterwards is read. Records are
    only ever added to the channel. *)
Theorem listener_stops_at_first_error pre e post rx rx1 :
  listenTr pre rx = Ret (rx1, None) →
  listenTr (pre ++ RecvErr e :: post) rx = Ret (rx1, Some e)
  ∧ rx `prefix_of` rx1.
Proof.
  intros H. split; [|by eapply listenTr_grows].
  revert rx H. induction pre as [|[e0|resp] pre IH]; intros rx H;
    simpl in *.
  - by inversion H.
  - by inversion H.
  - destruct (mapStreamSpeechResults (speechpb.Results resp) [])
      as [results| |]; [|done..]. simpl in *. by apply IH.
Qed.

Lemma listener_stops_at_first_error_witness :
  listenTr ([RecvResp (speechpb.mkResponse None [])]
            ++ RecvErr "EOF" :: [RecvResp (speechpb.mkResponse None [])]) []
  = Ret ([], Some "EOF")
  ∧ [] `prefix_of` ([] : list sgenc.StrTrRec).
Proof.
  apply (listener_stops_at_first_error
           [RecvResp (speechpb.mkResponse None [])] "EOF"
           [RecvResp (speechpb.mkResponse None [])] [] []).
  reflexivity.
Defined.

(** X19. On durations in normal form [mapDuration] is exact and keeps
    the order: the result is [Seconds * 10^9 + Nanos] nanoseconds, and one
    duration maps below another exactly when it comes first by seconds,
    then nanoseconds. *)
Theorem mapDuration_keeps_order d1 d2 :
  normal d1 → normal d2 →
  mapDuration d1 = speechpb.Seconds d1 * 10 ^ 9 + speechpb.Nanos d1
  ∧ (mapDuration d1 ≤ mapDuration d2 ↔
     speechpb.Seconds d1 < speechpb.Seconds d2
     ∨ (speechpb.Seconds d1 = speechpb.Seconds d2
        ∧ speechpb.Nanos d1 ≤ speechpb.Nanos d2)).
Proof.
  unfold normal. intros [Hs1 Hn1] [Hs2 Hn2].
  assert (H : ∀ d, 0 ≤ speechpb.Seconds d ≤ 9223372035 →
                   0 ≤ speechpb.Nanos d < 10 ^ 9 →
                   mapDuration d
                   = speechpb.Seconds d * 10 ^ 9 + speechpb.Nanos d).
  { intros d Hs Hn. unfold mapDuration.
    rewrite wrap64_in_range; [lia|]. unfold MaxInt64. lia. }
  rewrite (H d1), (H d2) by done. split; [done|]. lia.
Qed.

Lemma mapDuration_keeps_order_witness :
  mapDuration (speechpb.mkDuration 4 990000000) = 4 * 10 ^ 9 + 990000000
  ∧ (mapDuration (speechpb.mkDuration 4 990000000)
     ≤ mapDuration (speechpb.mkDuration 5 0) ↔
     4 < 5 ∨ (4 = 5 ∧ 990000000 ≤ 0)).
Proof.
  apply (mapDuration_keeps_order (speechpb.mkDuration 4 990000000)
           (speechpb.mkDuration 5 0)).
  - unfold normal. simpl. lia.
  - unfold normal. simpl. lia.
Defined.

(** X20. For a non-negative byte count [computeTimeshiftOffset] returns a
    duration between zero and the largest [time.Duration] that is a whole
    number of microseconds: the six decimals of ["%f"] are all that
    survives of the division. *)
Theorem computeTimeshiftOffset_range b :
  0 ≤ b →
  0 ≤ computeTimeshiftOffset b ≤ MaxInt64
  ∧ computeTimeshiftOffset b mod 1000 = 0.
Proof.
  intros Hb. pose proof (computeTimeshiftOffset_nonneg b Hb) as Hn.
  unfold computeTimeshiftOffset in *.
  destruct (is_zero _); [by vm_compute|].
  set (secs := fdiv (float_of_int b) _) in *.
  destruct (is_zero secs); [by vm_compute|].
  assert (Hs : 0 ≤ mant secs).
  { unfold secs. apply fdiv_nonneg; [|by vm_compute].
    apply round_b64_nonneg; lia. }
  unfold ParseDuration in *.
  assert (Hneg : negative (Sprintf_f secs) = false).
  { unfold Sprintf_f. simpl. apply Z.ltb_ge. done. }
  rewrite Hneg in *.
  destruct (_ <? millionths (Sprintf_f secs) / 10 ^ 6);
    [by vm_compute|].
  destruct (Z.ltb_spec MaxInt64
              (millionths (Sprintf_f secs) / 10 ^ 6 * 10 ^ 9
               + millionths (Sprintf_f secs) mod 10 ^ 6 * 1000));
    [by vm_compute|].
  split; [lia|].
  replace (10 ^ 9) with (1000000 * 1000) by reflexivity.
  rewrite Z.mul_assoc, <- Z.mul_add_distr_r. apply Z.mod_mul. lia.
Qed.

Lemma computeTimeshiftOffset_range_witness :
  0 ≤ computeTimeshiftOffset 1 ≤ MaxInt64
  ∧ computeTimeshiftOffset 1 mod 1000 = 0.
Proof. apply (computeTimeshiftOffset_range 1). lia. Defined.

Lemma rne_exact q d : 0 < d → rne (q * d) d = q.
Proof.
  intros Hd. unfold rne. rewrite Z.div_mul, Z.mod_mul by lia.
  destruct (Z.ltb_spec (2 * 0) d); [done|lia].
Qed.

(** Rounding a quotient that is an integer below [2^53] loses nothing. *)
Lemma round_b64_exact n d k :
  0 < d → 0 < k < 2 ^ 53 → n = k * d → holds (round_b64 n d) k.
Proof.
  intros Hd Hk ->. unfold round_b64, holds.
  assert (Hn : 0 < k * d) by nia.
  destruct (Z.eqb_spec (k * d) 0); [lia|].
  rewrite Z.abs_eq, Z.sgn_pos, Z.mul_1_l by lia.
  set (L := Z.log2 (k * d) - Z.log2 d).
  set (above := if 0 <=? L then _ else _).
  set (e := (if above then L else L - 1) - 52).
  assert (He : e ≤ 0).
  { unfold e. destruct above eqn:Ha.
    - unfold above in Ha. destruct (Z.leb_spec 0 L); [|lia].
      apply Z.leb_le in Ha.
      assert (2 ^ L ≤ k) by nia.
      assert (L < 53); [|lia].
      apply (Z.pow_lt_mono_r_iff 2); lia.
    - pose proof (Z.log2_mul_above k d ltac:(lia) ltac:(lia)).
      assert (Z.log2 k < 53); [|unfold L; lia].
      apply Z.log2_lt_pow2; lia. }
  cbn [mant expo]. split; [done|].
  destruct (Z.leb_spec 0 e).
  - assert (e = 0) as -> by lia. simpl.
    rewrite Z.mul_1_r. rewrite rne_exact by lia. lia.
  - replace (k * d * 2 ^ (- e)) with (k * 2 ^ (- e) * d) by lia.
    by rewrite rne_exact.
Qed.

Lemma fdiv_exact a r q c :
  0 < c → 0 < q < 2 ^ 53 →
  holds a (q * c) → holds r c → holds (fdiv a r) q.
Proof.
  intros Hc Hq [Hea Ha] [Her Hr]. unfold fdiv.
  assert (Hp : ∀ x, 0 ≤ x → 0 < 2 ^ x) by (intros; by apply Z.pow_pos_nonneg).
  assert (Hmr : 0 < mant r).
  { rewrite Hr. pose proof (Hp (- expo r)). nia. }
  rewrite Z.sgn_pos, Z.mul_1_l, Z.abs_eq by lia.
  destruct (Z.leb_spec (expo r) (expo a)).
  - apply round_b64_exact; [done..|].
    rewrite Ha, Hr.
    replace (- expo r) with (- expo a + (expo a - expo r)) by lia.
    rewrite Z.pow_add_r by lia. lia.
  - apply round_b64_exact; [|done|].
    + pose proof (Hp (expo r - expo a)). nia.
    + rewrite Ha, Hr.
      replace (- expo a) with (- expo r + (expo r - expo a)) by lia.
      rewrite Z.pow_add_r by lia. lia.
Qed.

Lemma computeTimeshiftOffset_whole_seconds_aux k :
  0 ≤ k ≤ 9223372036 →
  computeTimeshiftOffset (32000 * k) = k * 10 ^ 9.
Proof.
  intros Hk. destruct (Z.eq_dec k 0) as [->|Hk0]; [reflexivity|].
  unfold computeTimeshiftOffset.
  set (byteRate := fdiv (float_of_int inBitrate) (float_of_int 8)).
  assert (Hr : holds byteRate 32000) by (vm_compute; split; [discriminate|reflexivity]).
  assert (Hz : is_zero byteRate = false) by reflexivity.
  rewrite Hz.
  assert (Hb : holds (float_of_int (32000 * k)) (k * 32000)).
  { apply round_b64_exact; [lia| |lia].
    change (2 ^ 53) with 9007199254740992. lia. }
  assert (Hs : holds (fdiv (float_of_int (32000 * k)) byteRate) k).
  { apply (fdiv_exact _ _ k 32000); [lia| |done..].
    change (2 ^ 53) with 9007199254740992. lia. }
  set (secs := fdiv (float_of_int (32000 * k)) byteRate) in *.
  destruct Hs as [He Hm].
  assert (Hp : 0 < 2 ^ (- expo secs)) by (apply Z.pow_pos_nonneg; lia).
  assert (Hms : 0 < mant secs) by nia.
  unfold is_zero. destruct (Z.eqb_spec (mant secs) 0); [lia|].
  assert (Hf : Sprintf_f secs = mkDecimal6 false (k * 10 ^ 6)).
  { unfold Sprintf_f. f_equal.
    - apply Z.ltb_ge. lia.
    - rewrite Z.abs_eq by lia. destruct (Z.leb_spec 0 (expo secs)).
      + assert (expo secs = 0) as E by lia. rewrite E in *. simpl in Hm.
        simpl. lia.
      + rewrite Hm.
        replace (k * 2 ^ (- expo secs) * 10 ^ 6)
          with (k * 10 ^ 6 * 2 ^ (- expo secs)) by lia.
        by rewrite rne_exact. }
  rewrite Hf. unfold ParseDuration. cbn [negative millionths].
  rewrite Z.div_mul, Z.mod_mul by lia.
  change (MaxInt64 / 10 ^ 9) with 9223372036.
  destruct (Z.ltb_spec 9223372036 k); [lia|].
  destruct (Z.ltb_spec MaxInt64 (k * 10 ^ 9 + 0 * 1000)).
  - unfold MaxInt64 in *. lia.
  - lia.
Qed.

(** X21. Whole seconds of audio come out exact: [32000 * k] bytes, for
    any [k] up to the 9223372036 seconds a [time.Duration] can hold, give
    exactly [k] seconds. *)
Theorem computeTimeshiftOffset_whole_seconds k :
  0 ≤ k ≤ 9223372036 →
  computeTimeshiftOffset (32000 * k) = k * 10 ^ 9.
Proof. apply computeTimeshiftOffset_whole_seconds_aux. Qed.

Lemma computeTimeshiftOffset_whole_seconds_witness :
  computeTimeshiftOffset (32000 * 300) = 300 * 10 ^ 9.
Proof. apply (computeTimeshiftOffset_whole_seconds 300). lia. Defined.

(** X22. Rotation is asked for as soon as the audio sent amounts to the
    session timeout: when a successful send brings the bytes of the session
    to [32000 * k], [cancel] has been called once that send is done exactly
    if it had been called before or the timeout is at most [k] seconds. *)
Theorem rotation_requested_at_timeout ShiftTime pre p k s sess1 s1 :
  selectLoop ShiftTime pre (mkSess 0 false) s = (Blocked, sess1, s1) →
  bytesSent sess1 + len p = 32000 * k →
  0 ≤ k ≤ 9223372036 →
  selectLoop ShiftTime (pre ++ [Tx (Some p) None]) (mkSess 0 false) s
  = (Blocked,
     mkSess (32000 * k) (canceled sess1 || (sessionTimeout s <=? k * 10 ^ 9)),
     s1).
Proof.
  intros Hpre Hb Hk.
  rewrite (selectLoop_app _ _ _ _ _ _ _ Hpre). simpl.
  apply selectLoop_keeps_offset in Hpre as [_ Ht].
  unfold sendAudio. simpl. rewrite Hb.
  rewrite wrap64_in_range by (unfold MaxInt64; lia).
  rewrite computeTimeshiftOffset_whole_seconds_aux by done.
  rewrite Ht. destruct (sessionTimeout s <=? k * 10 ^ 9).
  - by rewrite orb_true_r.
  - rewrite orb_false_r. by destruct sess1.
Qed.

Lemma rotation_requested_at_timeout_witness :
  selectLoop shiftBoth ([] ++ [Tx (Some oneSecond) None])
    (mkSess 0 false) (mkStream 0 1000000000 [])
  = (Blocked,
     mkSess (32000 * 1) (false || (1000000000 <=? 1 * 10 ^ 9)),
     mkStream 0 1000000000 []).
Proof.
  apply (rotation_requested_at_timeout shiftBoth []
           oneSecond 1 (mkStream 0 1000000000 [])
           (mkSess 0 false)).
  - reflexivity.
  - vm_compute. reflexivity.
  - lia.
Defined.

(** ** Properties of the image search client *)

Lemma oneOf_In s l : oneOf s l = true ↔ In s l.
Proof.
  unfold oneOf. rewrite existsb_exists. split.
  - intros (x & Hx & E). apply String.eqb_eq in E. by subst.
  - intros H. exists s. split; [done|]. apply String.eqb_refl.
Qed.

(** X23. The two filters of the command line: a recognised value
    becomes the only value of its parameter, any other value (such as the
    default "undefined") removes the parameter even if an earlier option
    had set it, and no other parameter is touched. *)
Theorem filters_suppress_unknown_values s v k :
  FilterImgType s v !! "imgType"
  = (if oneOf s imgTypes then Some [s] else None)
  ∧ FilterImgSize s v !! "imgSize"
    = (if oneOf s imgSizes then Some [s] else None)
  ∧ (k ≠ "imgType" → FilterImgType s v !! k = v !! k)
  ∧ (k ≠ "imgSize" → FilterImgSize s v !! k = v !! k).
Proof.
  unfold FilterImgType, FilterImgSize.
  destruct (oneOf s imgTypes), (oneOf s imgSizes);
    rewrite ?lookup_insert_eq, ?lookup_delete_eq;
    repeat split; intros;
    rewrite ?lookup_insert_ne, ?lookup_delete_ne by done; done.
Qed.

Lemma filters_suppress_unknown_values_witness :
  FilterImgType "undefined" (FilterImgType "photo" ∅) !! "q"
  = FilterImgType "photo" ∅ !! "q".
Proof.
  apply (filters_suppress_unknown_values "undefined"
           (FilterImgType "photo" ∅) "q").
  discriminate.
Defined.

(** X24. No option can tamper with the fixed part of a search request:
    whatever the options do, the query carries the client's key and engine
    id, [searchType=image], the word searched and [prettyPrint=false], each
    as a single value; every other parameter is as the options left it. *)
Theorem search_query_is_fixed c q opts k :
  searchValues c q opts !! "key" = Some [Key c]
  ∧ searchValues c q opts !! "cx" = Some [Cx c]
  ∧ searchValues c q opts !! "searchType" = Some ["image"]
  ∧ searchValues c q opts !! "q" = Some [q]
  ∧ searchValues c q opts !! "prettyPrint" = Some ["false"]
  ∧ (k ∉ ["key"; "cx"; "searchType"; "q"; "prettyPrint"] →
     searchValues c q opts !! k = fold_left (λ v f, f v) opts ∅ !! k).
Proof.
  unfold searchValues. repeat split.
  - by rewrite !lookup_insert_ne, lookup_insert_eq by done.
  - by rewrite !lookup_insert_ne, lookup_insert_eq by done.
  - by rewrite !lookup_insert_ne, lookup_insert_eq by done.
  - by rewrite !lookup_insert_ne, lookup_insert_eq by done.
  - by rewrite lookup_insert_eq.
  - intros Hk. rewrite !lookup_insert_ne; [done|set_solver..].
Qed.

Lemma search_query_is_fixed_witness :
  searchValues (mkSC "k" "x") "ant"
    [FilterImgType "photo"; (λ v, <["q" := ["cat"]]> v)] !! "imgType"
  = fold_left (λ v f, f v)
      [FilterImgType "photo"; (λ v, <["q" := ["cat"]]> v)] ∅ !! "imgType".
Proof.
  apply (search_query_is_fixed (mkSC "k" "x") "ant"
           [FilterImgType "photo"; (λ v, <["q" := ["cat"]]> v)] "imgType").
  set_solver.
Defined.

(** X25. [SearchImages] returns results only from a 200 answer to a
    request made with both credentials; a client without key or engine id
    fails before any request is made, the missing key being reported
    first. *)
Theorem search_results_need_credentials_and_200
    Do decodeISR decodeError c q opts :
  (∀ items, SC_SearchImages Do decodeISR decodeError c q opts = Items items →
     Key c ≠ "" ∧ Cx c ≠ ""
     ∧ ∃ body, Do (searchValues c q opts) = Some (200, body)
               ∧ decodeISR body = Items items)
  ∧ (Key c = "" →
     SC_SearchImages Do decodeISR decodeError c q opts
     = SearchFailed "search client key missing")
  ∧ (Key c ≠ "" → Cx c = "" →
     SC_SearchImages Do decodeISR decodeError c q opts
     = SearchFailed "search client cx missing").
Proof.
  unfold SC_SearchImages, Validate. repeat split.
  - destruct (String.eqb_spec (Key c) ""); [done|done].
  - destruct (String.eqb_spec (Key c) ""); [done|].
    destruct (String.eqb_spec (Cx c) ""); done.
  - destruct (String.eqb_spec (Key c) ""); [done|].
    destruct (String.eqb_spec (Cx c) ""); [done|].
    destruct (Do (searchValues c q opts)) as [[status body]|]; [|done].
    destruct (Z.eqb_spec status 200); [|done]. subst. eauto.
  - intros ->. done.
  - intros Hk ->. by destruct (String.eqb_spec (Key c) "").
Qed.

Lemma search_results_need_credentials_and_200_witness :
  SC_SearchImages (λ _, Some (200, "{}")) (λ _, Items []) (λ b, b)
    (mkSC "" "x") "ant" []
  = SearchFailed "search client key missing".
Proof.
  apply (search_results_need_credentials_and_200
           (λ _, Some (200, "{}")) (λ _, Items []) (λ b, b)
           (mkSC "" "x") "ant" []).
  reflexivity.
Defined.

(** ** A repeated word *)

(** The first call on a fresh ring whose first result is accepted. *)
Lemma fresh_ring_first_hit Head fuel results probes a :
  (2 ≤ length results)%nat →
  results !! 0%nat = Some a →
  discard Head (Link a) = false →
  imageRing_next Head (S fuel) (freshRing results) probes
  = Ret (Some a,
         mkRing (<[0%nat := mkTouched a false true]> (all (freshRing results)))
           (Z.rem 1 (Z.of_nat (length results) - 1)),
         probes ++ [Link a]).
Proof.
  intros Hlen Ha Hacc. unfold imageRing_next, freshRing. cbn [all index].
  set (l := map (λ v, mkTouched v false false) results).
  assert (Hl : len l = Z.of_nat (length results)).
  { unfold len, l. by rewrite length_map. }
  assert (Hl0 : l !! 0%nat = Some (mkTouched a false false)).
  { unfold l. change ((((λ v, mkTouched v false false) <$> results) !! 0%nat)
                      = Some (mkTouched a false false)).
    by rewrite list_lookup_fmap, Ha. }
  destruct (Z.eqb_spec (len l) 0); [lia|].
  assert (Hscan : scan Head (S fuel) l 0 probes
                  = Ret (Some 0, <[0%nat := mkTouched a false true]> l,
                         probes ++ [Link a])).
  { cbn [scan]. destruct (Z.ltb_spec 0 (len l)); [|lia].
    rewrite (index_slice_lookup l 0 (mkTouched a false false)) by done.
    cbn [mbind outcome_bind]. unfold touch. simpl. by rewrite Hacc. }
  rewrite Hscan. cbn [mbind outcome_bind].
  rewrite (index_slice_lookup _ 0 (mkTouched a false true)).
  2: done.
  2:{ apply list_lookup_insert_eq. apply lookup_lt_Some in Hl0. done. }
  cbn [mbind outcome_bind]. unfold go_rem. rewrite len_insert, Hl.
  destruct (Z.eqb_spec (Z.of_nat (length results) - 1) 0); [lia|].
  reflexivity.
Qed.

(** X26. A word that comes back is served from the cache. For a word
    with no ring, when the search returns at least two results that the
    probe accepts, a first [Run] appends the first result and a second
    [Run] for the same word appends the result at position
    [1 mod (n - 1)], whatever the search service would answer by then: with
    two results that is the first one again, with more it is the second. *)
Theorem repeated_word_is_served_from_cache
    Head S1 fuel r1 r2 m probes k results a b :
  index_slice (rec r1) (c r1) = Ret k →
  index_slice (rec r2) (c r2) = Ret k →
  m !! k = None →
  S1 k = Items results →
  (2 ≤ length results)%nat →
  Forall (λ v, discard Head (Link v) = false) results →
  results !! 0%nat = Some a →
  results !! Z.to_nat (1 mod (Z.of_nat (length results) - 1)) = Some b →
  ∃ m1 p1 m2 p2,
    Run Head S1 (S fuel) r1 m probes
    = Ret (mkRequest (pos r1) (c r1) (rec r1 ++ [Link a]) (err r1), m1, p1)
    ∧ ∀ S2,
        Run Head S2 (S fuel) r2 m1 p1
        = Ret (mkRequest (pos r2) (c r2) (rec r2 ++ [Link b]) (err r2),
               m2, p2).
Proof.
  intros Hk1 Hk2 Hm Hs Hlen Hall Ha Hb.
  assert (Hacc : discard Head (Link a) = false).
  { rewrite Forall_lookup in Hall. by eapply Hall. }
  pose proof (fresh_ring_first_hit Head fuel results probes a Hlen Ha Hacc)
    as Hfirst.
  set (ring1 := mkRing
         (<[0%nat := mkTouched a false true]> (all (freshRing results)))
         (Z.rem 1 (Z.of_nat (length results) - 1))) in *.
  set (m1 := <[k := ring1]> (ringCache_set k results m)).
  (* the entry under the cursor of [ring1] *)
  assert (Hrem : Z.rem 1 (Z.of_nat (length results) - 1)
                 = 1 mod (Z.of_nat (length results) - 1)).
  { apply Z.rem_mod_nonneg; lia. }
  pose proof (Z.mod_pos_bound 1 (Z.of_nat (length results) - 1)
                ltac:(lia)) as Hbound.
  assert (Hlen1 : len (all ring1) = Z.of_nat (length results)).
  { unfold ring1, freshRing, len. cbn [all].
    by rewrite length_insert, length_map. }
  assert (Hcur : ∃ ti, all ring1 !! Z.to_nat (index ring1) = Some ti
                       ∧ image ti = b ∧ live Head ti).
  { unfold ring1. cbn [all index freshRing]. rewrite Hrem.
    destruct (decide (Z.to_nat (1 mod (Z.of_nat (length results) - 1))
                      = 0%nat)) as [E|E].
    - rewrite E in *. exists (mkTouched a false true).
      split; [|split].
      + apply list_lookup_insert_eq. rewrite length_map. lia.
      + simpl. congruence.
      + left. by split.
    - exists (mkTouched b false false). split; [|split].
      + rewrite list_lookup_insert_ne by done.
        change ((((λ v, mkTouched v false false) <$> results)
                   !! Z.to_nat (1 mod (Z.of_nat (length results) - 1)))
                = Some (mkTouched b false false)).
        by rewrite list_lookup_fmap, Hb.
      + done.
      + left. split; [done|]. simpl.
        rewrite Forall_lookup in Hall. by eapply Hall. }
  destruct Hcur as (ti & Hti & Him & Hlive).
  destruct (next_live_cursor Head fuel ring1 (probes ++ [Link a]) ti)
    as (l2 & p2 & Hsecond).
  { rewrite Hlen1. lia. }
  { unfold ring1. cbn [index]. rewrite Hrem. lia. }
  { done. }
  { done. }
  rewrite Him in Hsecond.
  eexists m1, (probes ++ [Link a]), _, p2. split.
  - unfold Run.
    assert (Hcol : (len (rec r1) <=? c r1) = false).
    { unfold index_slice in Hk1. destruct (0 <=? c r1) eqn:E; [|done].
      destruct (rec r1 !! Z.to_nat (c r1)) eqn:El; [|done].
      apply lookup_lt_Some in El. apply Z.leb_le in E.
      apply Z.leb_gt. unfold len. lia. }
    rewrite Hcol, Hk1. cbn [mbind outcome_bind].
    rewrite (ringCache_next_absent _ _ _ _ _ Hm). cbn [mbind outcome_bind].
    rewrite Hs.
    destruct (Z.eqb_spec (len results) 0) as [E|_]; [unfold len in E; lia|].
    assert (Hhit : ringCache_next Head (S fuel) k (ringCache_set k results m)
                     probes
                   = Ret (Some a, m1, probes ++ [Link a])).
    { eapply ringCache_next_hit; [apply lookup_insert_eq|exact Hfirst]. }
    rewrite Hhit. reflexivity.
  - intros S2. apply (Run_cache_hit_aux _ _ _ _ _ _ k); [done|].
    eapply ringCache_next_hit; [apply lookup_insert_eq|exact Hsecond].
Qed.

Lemma repeated_word_is_served_from_cache_witness :
  ∃ m1 p1 m2 p2,
    Run allLive demoSearch 1 (mkRequest 0 1 ["0.5"; "ant"] None) ∅ []
    = Ret (mkRequest 0 1 (["0.5"; "ant"] ++ [Link (isr "ant-1.jpg")]) None,
           m1, p1)
    ∧ ∀ S2,
        Run allLive S2 1 (mkRequest 2 1 ["2.5"; "ant"] None) m1 p1
        = Ret (mkRequest 2 1 (["2.5"; "ant"] ++ [Link (isr "ant-1.jpg")])
                 None, m2, p2).
Proof.
  apply (repeated_word_is_served_from_cache allLive demoSearch 0
           (mkRequest 0 1 ["0.5"; "ant"] None)
           (mkRequest 2 1 ["2.5"; "ant"] None) ∅ [] "ant"
           [isr "ant-1.jpg"; isr "ant-2.jpg"]
           (isr "ant-1.jpg") (isr "ant-1.jpg")).
  - reflexivity.
  - reflexivity.
  - apply lookup_empty.
  - reflexivity.
  - simpl. lia.
  - repeat constructor.
  - reflexivity.
  - reflexivity.
Defined.

(** ** The offset over a whole run *)

Lemma audio_nonneg sessions :
  Forall (λ ss, 0 ≤ wrap64 (sentBytes (events ss))) sessions →
  0 ≤ audio sessions.
Proof.
  induction 1 as [|ss rest Hss _ IH]; simpl; [done|].
  destruct (opened ss); [lia|].
  pose proof (computeTimeshiftOffset_nonneg _ Hss). lia.
Qed.

(** From an offset that is not negative, for instance the zero of a new
    stream, as long as the audio of the sessions fits [time.Duration]
    together with that offset, the offset [openSessionLoop] arrives at is
    never below the one it started from, and never above it by more than
    that audio: no addition of the run wraps. *)
Lemma offset_grows_over_run ShiftTime sessions : ∀ s e0,
  0 ≤ timeshiftOffset s →
  Forall (λ ss, 0 ≤ wrap64 (sentBytes (events ss))) sessions →
  timeshiftOffset s + audio sessions ≤ MaxInt64 →
  timeshiftOffset s
  ≤ timeshiftOffset (final (openSessionLoop ShiftTime sessions s e0))
  ≤ timeshiftOffset s + audio sessions.
Proof.
  induction sessions as [|ss rest IH]; intros s e0 Hs Hall Hfit.
  - simpl. lia.
  - apply Forall_cons in Hall as [Hss Hall].
    pose proof (audio_nonneg rest Hall) as Hrest.
    pose proof (computeTimeshiftOffset_nonneg _ Hss) as Hd.
    rewrite openSessionLoop_cons. cbn [audio] in Hfit |- *.
    destruct (opened ss) as [err|] eqn:Hop.
    + simpl. lia.
    + destruct (sessLoop_opened ShiftTime (events ss) s)
        as (r & sess & s' & -> & _ & _ & Ho).
      destruct r as [[e|]|].
      * rewrite wrap64_in_range in Ho by lia.
        destruct (is_fatal e || canceledAfter ss); [simpl; lia|].
        destruct (IH s' (Some e)) as [H1 H2]; [lia|done|lia|lia].
      * rewrite wrap64_in_range in Ho by lia.
        destruct (IH s' e0) as [H1 H2]; [lia|done|lia|lia].
      * simpl. lia.
Qed.
